(** * byescreen: the feature aggregator and the model scorer

    A shallow embedding of [aggreagated_analysis.py] and [screen.py].

    Numbers.  Python floats are idealised as exact rationals ([Q]); where
    the code can meet a NaN (unparseable descriptor cells, 0/0 in numpy) the
    value type [fl] adds it explicitly.  Scores are sums of logarithms and
    are kept as formal sums ([lsum]), since [math.log] has no rational value.

    Objects.  The feature records of the aggregator are Python dicts that are
    mutated in place and shared between lists, so they live in a store
    ([gmap loc feature]) and lists hold references. *)

From Stdlib Require Import QArith Qround ZArith Lia Lqa Sorted Ascii String.
From stdpp Require Import gmap strings list fin_maps.

Local Open Scope Q_scope.

(** ** Python builtins on numbers *)

Definition Qltb (x y : Q) : bool := negb (Qle_bool y x).

(** [min(a, b)]: the first argument unless the second is strictly smaller. *)
Definition py_min (a b : Q) : Q := if Qltb b a then b else a.

(** [max(a, b)]: the first argument unless the second is strictly larger. *)
Definition py_max (a b : Q) : Q := if Qltb a b then b else a.

(** [bool(x)] of a number: true unless it is zero. *)
Definition py_bool (x : Q) : bool := negb (Qeq_bool x 0).

(** ** aggreagated_analysis.py *)

(** An interval is the two-element list [[low, high]]. *)
Definition interval_t : Type := Q * Q.

(** [get_overlap(a, b)], line 35. *)
Definition get_overlap (a b : interval_t) : Q :=
  py_max 0 (py_min (snd a) (snd b) - py_max (fst a) (fst b)).

(** The two intervals, read as closed, have a common point. *)
Definition share_point (a b : interval_t) : Prop :=
  exists p : Q, fst a <= p /\ p <= snd a /\ fst b <= p /\ p <= snd b.

(** The two intervals have two distinct common points, that is, their
    intersection has positive length. *)
Definition share_segment (a b : interval_t) : Prop :=
  exists p q : Q, p < q /\
    fst a <= p /\ q <= snd a /\ fst b <= p /\ q <= snd b.

(** *** Feature records and the object store *)

(** The dict built by [read_model] (lines 52-57): keys "name", "ratio",
    "interval" and "cnt". *)
Record feature : Type := Feature {
  name : string;
  ratio : Q;
  interval : interval_t;
  cnt : Z
}.

(** The record as [read_model] creates it: the count starts at 1. *)
Definition new_feature (n : string) (r : Q) (i : interval_t) : feature :=
  {| name := n; ratio := r; interval := i; cnt := 1 |}.

(** References to dicts; the store maps each live reference to its dict. *)
Abbreviation loc := nat.
Abbreviation store := (gmap nat feature).

(** The test of line 74 on the current contents of the two dicts. *)
Definition matches (v1 v2 : feature) : bool :=
  String.eqb (name v1) (name v2)
  && py_bool (get_overlap (interval v1) (interval v2)).

(** Lines 75-78: the new contents of [features[ix2]].  Both dicts are read
    before the interval is stored, and the ratio of [val1] is read after it;
    the interval store does not change any ratio, so the formula also covers
    [val1] and [features[ix2]] being one object. *)
Definition widen (v1 v2 : feature) : feature :=
  {| name := name v2;
     ratio := ratio v2 + ratio v1;
     interval := (py_min (fst (interval v1)) (fst (interval v2)),
                  py_max (snd (interval v1)) (snd (interval v2)));
     cnt := (cnt v2 + 1)%Z |}.

(** The inner loop, lines 72-79, over the references held by [features].
    [None] stands for a dangling reference, which Python cannot produce. *)
Fixpoint scan (val1 : loc) (fs : list loc) (σ : store) (intersected : bool)
  : option (store * bool) :=
  match fs with
  | [] => Some (σ, intersected)
  | val2 :: fs' =>
      match σ !! val1, σ !! val2 with
      | Some v1, Some v2 =>
          if matches v1 v2
          then scan val1 fs' (<[val2 := widen v1 v2]> σ) true
          else scan val1 fs' σ intersected
      | _, _ => None
      end
  end.

(** [merge_features(features, aux_features)], lines 70-83.  The two lists
    are distinct list objects; [features] grows by [append]. *)
Fixpoint merge_features (σ : store) (features aux_features : list loc)
  : option (store * list loc) :=
  match aux_features with
  | [] => Some (σ, features)
  | val1 :: aux' =>
      match scan val1 features σ false with
      | Some (σ', intersected) =>
          merge_features σ'
            (if intersected then features else features ++ [val1]) aux'
      | None => None
      end
  end.

(** Reading the dicts a list refers to. *)
Definition deref (σ : store) (l : list loc) : list (option feature) :=
  map (fun r => σ !! r) l.

(** [read_model] returns a list of new dicts: allocation at unused
    references. *)
Fixpoint alloc_all (σ : store) (vs : list feature) : store * list loc :=
  match vs with
  | [] => (σ, [])
  | v :: vs' =>
      let r := fresh (dom σ) in
      let '(σ', rs) := alloc_all (<[r := v]> σ) vs' in
      (σ', r :: rs)
  end.

(** Lines 92-96 of [analyze_models]: every model's list is read into new
    dicts and merged into the running list. *)
Fixpoint merge_models (σ : store) (features : list loc)
    (models : list (list feature)) : option (store * list loc) :=
  match models with
  | [] => Some (σ, features)
  | m :: models' =>
      let '(σ1, aux) := alloc_all σ m in
      match merge_features σ1 features aux with
      | Some (σ2, features') => merge_models σ2 features' models'
      | None => None
      end
  end.

(** *** Names and intervals only

    Whether two dicts match depends on their names and intervals alone;
    the definitions below restate the test on that pair and count how
    often a reference is held by a list. *)

Definition key (v : feature) : string * interval_t := (name v, interval v).

Definition matchk (k1 k2 : string * interval_t) : bool :=
  String.eqb k1.1 k2.1 && py_bool (get_overlap k1.2 k2.2).

Definition mk (κ : gmap nat (string * interval_t)) (s r : loc) : bool :=
  match κ !! s, κ !! r with
  | Some k1, Some k2 => matchk k1 k2
  | _, _ => false
  end.

Definition keys (σ : store) : gmap nat (string * interval_t) := key <$> σ.

Definition occ (fs : list loc) (r : loc) : Z :=
  Z.of_nat (count_occ Nat.eq_dec fs r).

Definition bump (κ : gmap nat (string * interval_t)) (val1 : loc)
    (fs : list loc) (r : loc) : Z :=
  if mk κ val1 r then occ fs r else 0%Z.

Fixpoint pend (κ : gmap nat (string * interval_t)) (F S : list loc) (r : loc) : Z :=
  match S with
  | [] => 0%Z
  | s :: S' => (bump κ s F r + pend κ F S' r)%Z
  end.

Fixpoint later_free (κ : gmap nat (string * interval_t)) (S : list loc) : Prop :=
  match S with
  | [] => True
  | s :: S' => Forall (fun s' => mk κ s' s = false) S' /\ later_free κ S'
  end.

(** [v'] is [v] after some merges: the same name, an interval that
    contains the old one, a count that is not smaller. *)
Definition grown (v v' : feature) : Prop :=
  name v' = name v
  /\ fst (interval v') <= fst (interval v)
  /\ snd (interval v) <= snd (interval v')
  /\ (cnt v <= cnt v')%Z.

(** *** The report, lines 98-114 of [analyze_models] *)

(** [features_factors]: a dict from count to the list of records with that
    count, in insertion order (lines 98-103). *)
Fixpoint add_factor (val : feature) (d : list (Z * list feature))
  : list (Z * list feature) :=
  match d with
  | [] => [(cnt val, [val])]
  | (k, vs) :: d' =>
      if (k =? cnt val)%Z then (k, vs ++ [val]) :: d'
      else (k, vs) :: add_factor val d'
  end.

Definition features_factors (features : list feature)
  : list (Z * list feature) :=
  fold_left (fun d val => add_factor val d) features [].

(** What the dict holds after the loop over [fs]: under each key the
    records of [fs] with that count, in the order of [fs], and no empty
    list. *)
Definition factors_ok (d : list (Z * list feature)) (fs : list feature) : Prop :=
  Forall (fun kv => kv.2 = filter (fun v => cnt v = kv.1) fs /\ kv.2 <> []) d.

(** [sorted(..., reverse=True)]: a stable sort into descending order;
    [lt a b] says that the key of [a] is below the key of [b]. *)
Fixpoint insert_desc {A : Type} (lt : A -> A -> bool) (x : A) (l : list A)
  : list A :=
  match l with
  | [] => [x]
  | y :: l' => if lt x y then y :: insert_desc lt x l' else x :: y :: l'
  end.

Definition sorted_desc {A : Type} (lt : A -> A -> bool) (l : list A)
  : list A :=
  foldr (insert_desc lt) [] l.

(** The value shown on a report line (line 109): [ratio / cnt]. *)
Definition average (v : feature) : Q := ratio v / inject_Z (cnt v).

(** What is printed. *)
Inductive out_line : Type :=
  | OutKey (k : Z)
  | OutEntry (n : string) (lo hi : Q) (shown : Q)
  | OutBlank.

Definition entry_line (v : feature) : out_line :=
  OutEntry (name v) (fst (interval v)) (snd (interval v)) (average v).

Definition is_entry (l : out_line) : bool :=
  match l with
  | OutEntry _ _ _ _ => true
  | _ => false
  end.

#[export] Instance Qeq_decision (x y : Q) : Decision (x == y) := Qeq_dec x y.

(** The groups in the order they are printed: keys descending (line 106),
    each group by ratio descending (line 108). *)
Definition report_groups (features : list feature)
  : list (Z * list feature) :=
  map (fun kv : Z * list feature =>
         (fst kv, sorted_desc (fun a b => Qltb (ratio a) (ratio b)) (snd kv)))
      (sorted_desc (fun a b : Z * list feature => (fst a <? fst b)%Z)
                   (features_factors features)).

(** Lines 106-111.  [None] is the ZeroDivisionError of [ratio / cnt] for a
    record whose count is 0. *)
Definition report (features : list feature) : option (list out_line) :=
  if forallb (fun v => negb (cnt v =? 0)%Z) features
  then Some (concat (map (fun kv : Z * list feature =>
                            OutKey (fst kv) :: map entry_line (snd kv)
                            ++ [OutBlank])
                         (report_groups features)))
  else None.

(** *** [analyze_models], lines 91-111

    The models are given by the lists [read_model] returns for them.  The
    dicts of the final list are read and the report is printed. *)
Fixpoint deref_all (σ : store) (l : list loc) : option (list feature) :=
  match l with
  | [] => Some []
  | r :: l' =>
      match σ !! r, deref_all σ l' with
      | Some v, Some vs => Some (v :: vs)
      | _, _ => None
      end
  end.

Definition analyze_models (models : list (list feature))
  : option (list out_line) :=
  match merge_models ∅ [] models with
  | Some (σ, features) =>
      match deref_all σ features with
      | Some vs => report vs
      | None => None
      end
  | None => None
  end.

(** *** [read_model], lines 38-59

    The file is given by its lines, each with its line end.  The parsed
    record keeps what the code stores: the interval is the list of all
    numbers between the parentheses, whatever their number, and the numbers
    are what [common.to_float] returns.  [common.to_float] is not among
    the sources: the type [F] of its results and the function [to_float]
    are parameters, as is [args.n]. *)

(** [needle in s]. *)
Fixpoint contains (needle s : string) : bool :=
  String.prefix needle s
  || match s with
     | EmptyString => false
     | String _ s' => contains needle s'
     end.

(** [s.split(sep)] for a separator of one character. *)
Fixpoint split_on (sep : ascii) (s : string) : list string :=
  match s with
  | EmptyString => [EmptyString]
  | String c s' =>
      if Ascii.eqb c sep then EmptyString :: split_on sep s'
      else match split_on sep s' with
           | h :: t => String c h :: t
           | [] => [String c EmptyString]
           end
  end.

Definition in_chars (chars : list ascii) (c : ascii) : bool :=
  existsb (Ascii.eqb c) chars.

Fixpoint lstrip (chars : list ascii) (s : string) : string :=
  match s with
  | EmptyString => EmptyString
  | String c s' => if in_chars chars c then lstrip chars s' else s
  end.

Fixpoint rstrip (chars : list ascii) (s : string) : string :=
  match s with
  | EmptyString => EmptyString
  | String c s' =>
      match rstrip chars s' with
      | EmptyString => if in_chars chars c then EmptyString else String c EmptyString
      | r => String c r
      end
  end.

(** [s.strip(chars)]. *)
Definition strip (chars : list ascii) (s : string) : string :=
  rstrip chars (lstrip chars s).

Definition section_marker : string := "Features values importance".

Section read_model.
Context {F : Type} (to_float : string -> F) (n : Z).

Record raw_feature : Type := RawFeature {
  raw_name : string;
  raw_ratio : F;
  raw_interval : list F;
  raw_cnt : Z
}.

(** Lines 50-56: the dict made of a line of four fields. *)
Definition parse_fields (s_line : list string) : option raw_feature :=
  match s_line with
  | [f0; f1; _; f3] =>
      Some {| raw_name := f1;
              raw_ratio := to_float f0;
              raw_interval :=
                to_float <$> split_on ";"
                  (strip ["("%char; ")"%char]
                     (strip [" "%char; "010"%char] f3));
              raw_cnt := 1 |}
  | _ => None
  end.

(** The loop of lines 46-58; a [break] ends the recursion. *)
Fixpoint read_model_loop (lines : list string) (in_section : bool)
    (features : list raw_feature) : list raw_feature :=
  match lines with
  | [] => features
  | line :: rest =>
      let in_section := contains section_marker line || in_section in
      if in_section
      then match parse_fields (split_on "," line) with
           | Some f =>
               let features := features ++ [f] in
               if (n <=? Z.of_nat (length features))%Z then features
               else read_model_loop rest in_section features
           | None => read_model_loop rest in_section features
           end
      else read_model_loop rest in_section features
  end.

Definition read_model (lines : list string) : list raw_feature :=
  read_model_loop lines false [].

(** The lines from the first one that holds the marker. *)
Fixpoint from_marker (lines : list string) : list string :=
  match lines with
  | [] => []
  | line :: rest =>
      if contains section_marker line then lines else from_marker rest
  end.
End read_model.

(** * screen.py *)

(** ** Exceptions and results *)

(** The exceptions the modelled code can raise. *)
Inductive exn : Type :=
  | IndexError
  | KeyError
  | ValueError
  | ZeroDivisionError
  | OverflowError.

Inductive result (A : Type) : Type :=
  | Ok (a : A)
  | Raise (e : exn).
Arguments Ok {A} a.
Arguments Raise {A} e.

#[export] Instance result_ret : MRet result := fun A a => Ok a.
#[export] Instance result_bind : MBind result := fun A B f r =>
  match r with
  | Ok a => f a
  | Raise e => Raise e
  end.

(** [l[i]] for a Python list and an int: negative indices count from the
    end. *)
Definition py_index {A : Type} (l : list A) (i : Z) : result A :=
  let n := Z.of_nat (length l) in
  let j := if (i <? 0)%Z then (i + n)%Z else i in
  if ((j <? 0) || (n <=? j))%Z then Raise IndexError
  else match l !! Z.to_nat j with
       | Some a => Ok a
       | None => Raise IndexError
       end.

(** ** Floats

    Finite floats are read as rationals (no rounding, no overflow, one
    zero); the infinities and NaN are kept, since numpy produces them where
    Python raises. *)
Inductive fl : Type :=
  | Fin (q : Q)
  | PInf
  | NInf
  | NaN.

Definition is_nan (x : fl) : bool :=
  match x with NaN => true | _ => false end.

Definition fl_neg (x : fl) : fl :=
  match x with
  | Fin q => Fin (- q)
  | PInf => NInf
  | NInf => PInf
  | NaN => NaN
  end.

(** [x < y]; false when either side is NaN. *)
Definition fl_lt (x y : fl) : bool :=
  match x, y with
  | NaN, _ | _, NaN => false
  | Fin a, Fin b => Qltb a b
  | NInf, NInf => false
  | NInf, _ => true
  | _, PInf => match x with PInf => false | _ => true end
  | _, _ => false
  end.

Definition fl_sub (x y : fl) : fl :=
  match x, y with
  | NaN, _ | _, NaN => NaN
  | Fin a, Fin b => Fin (a - b)
  | PInf, PInf | NInf, NInf => NaN
  | PInf, _ => PInf
  | NInf, _ => NInf
  | Fin _, PInf => NInf
  | Fin _, NInf => PInf
  end.

(** The sign of a float as -1, 0 or 1; NaN has none. *)
Definition fl_sign (x : fl) : option Z :=
  match x with
  | Fin q => Some (Z.sgn (Qnum q))
  | PInf => Some 1%Z
  | NInf => Some (-1)%Z
  | NaN => None
  end.

Definition fl_signed_inf (s : Z) : fl :=
  if (s =? 0)%Z then NaN else if (0 <? s)%Z then PInf else NInf.

(** numpy's [/] on float64: division by zero gives an infinity, or NaN for
    0/0, with a warning and no exception. *)
Definition fl_div (x y : fl) : fl :=
  match x, y with
  | NaN, _ | _, NaN => NaN
  | Fin a, Fin b =>
      if Qeq_bool b 0 then fl_signed_inf (Z.sgn (Qnum a)) else Fin (a / b)
  | Fin _, _ => Fin 0
  | _, Fin b =>
      match fl_sign x with
      | Some s => fl_signed_inf (s * (if Qltb b 0 then -1 else 1))
      | None => NaN
      end
  | _, _ => NaN
  end.

(** [float * int]. *)
Definition fl_mul_int (x : fl) (c : Z) : fl :=
  match x with
  | Fin q => Fin (q * inject_Z c)
  | NaN => NaN
  | _ =>
      match fl_sign x with
      | Some s => fl_signed_inf (s * Z.sgn c)
      | None => NaN
      end
  end.

(** [ndarray.clip(lo, hi)] on one element: [minimum(maximum(x, lo), hi)];
    NaN stays NaN. *)
Definition fl_clip (lo hi : Q) (x : fl) : fl :=
  if is_nan x then NaN
  else
    let y := if fl_lt x (Fin lo) then Fin lo else x in
    if fl_lt (Fin hi) y then Fin hi else y.

(** [int(math.floor(x))]. *)
Definition py_floor (x : fl) : result Z :=
  match x with
  | Fin q => Ok (Qfloor q)
  | NaN => Raise ValueError
  | _ => Raise OverflowError
  end.

(** [a / b] on Python floats. *)
Definition py_div (a b : Q) : result Q :=
  if Qeq_bool b 0 then Raise ZeroDivisionError else Ok (a / b).

(** [math.log(q)].  The logarithm of a rational is not a rational: the value
    is kept as its argument, so that a list [[q1; ...; qn]] of such terms
    stands for the float [ln q1 + ... + ln qn]. *)
Definition math_log (q : Q) : result Q :=
  if Qle_bool q 0 then Raise ValueError else Ok q.

(** A sum of logarithms, given by the arguments in the order they were
    added. *)
Abbreviation score_t := (list Q).

(** ** The model (a JSON object) *)

Record probabilities_t : Type := Probabilities {
  feature_value_in_actives : list (list Q);
  feature_value_in_inactives : list (list Q);
  active : Q;
  inactive : Q
}.

Record normalization_t : Type := Normalization {
  imputation_values : list Q;
  mins : list Q;
  maxs : list Q
}.

Record model_t : Type := Model {
  features_names : list string;
  cnt_bins : Z;
  probabilities : probabilities_t;
  normalization : normalization_t
}.

(** ** [score_feature_vector], lines 23-33 *)

(** Lines 27-28: the bin of one feature value. *)
Definition bin_index (feature_value : fl) (cnt_bins : Z) : result Z :=
  fv ← py_floor (fl_mul_int feature_value cnt_bins);
  mret (if (fv =? cnt_bins)%Z then (fv - 1)%Z else fv).

(** The loop of lines 26-31; [ix] counts the features seen so far. *)
Fixpoint score_loop (feature_vector : list fl) (probs : probabilities_t)
    (cnt_bins : Z) (ix : nat) (score : score_t) : result score_t :=
  match feature_vector with
  | [] => Ok score
  | feature_value :: rest =>
      fv ← bin_index feature_value cnt_bins;
      row_a ← py_index (feature_value_in_actives probs) (Z.of_nat ix);
      a ← py_index row_a fv;
      row_i ← py_index (feature_value_in_inactives probs) (Z.of_nat ix);
      i ← py_index row_i fv;
      q ← py_div a i;
      t ← math_log q;
      score_loop rest probs cnt_bins (S ix) (score ++ [t])
  end.

Definition score_feature_vector (feature_vector : list fl)
    (probs : probabilities_t) (cnt_bins : Z) : result score_t :=
  score ← score_loop feature_vector probs cnt_bins 0 [];
  q ← py_div (active probs) (inactive probs);
  t ← math_log q;
  mret (score ++ [t]).

(** A model as the training writes it, for [n] features: both tables have
    a row of [cnt_bins] positive entries for every feature, and the two
    priors are positive. *)
Definition row_ok (cnt_bins : Z) (row : list Q) : Prop :=
  Z.of_nat (length row) = cnt_bins /\ Forall (fun p => 0 < p) row.

Definition tables_ok (probs : probabilities_t) (cnt_bins : Z) (n : nat) : Prop :=
  length (feature_value_in_actives probs) = n
  /\ length (feature_value_in_inactives probs) = n
  /\ Forall (row_ok cnt_bins) (feature_value_in_actives probs)
  /\ Forall (row_ok cnt_bins) (feature_value_in_inactives probs)
  /\ 0 < active probs /\ 0 < inactive probs.

(** ** [screen], lines 36-53 *)

(** A molecule of the JSON file: its name, the SMILES of its fragments, and
    a [score] key if the object already has one.  The score set by line 49
    is the mean of the listed fragment scores. *)
Record mol_t : Type := Mol {
  mol_name : string;
  mol_fragments : list string;
  mol_score : option (list score_t)
}.

(** Lines 42-45: fragments seen before are skipped, the others are looked up
    and scored in order. *)
Fixpoint score_fragments (frags : list string) (model : model_t)
    (fragments_features : gmap string (list fl))
    (processed_frags : list string) (fragments_scores : list score_t)
  : result (list score_t) :=
  match frags with
  | [] => Ok fragments_scores
  | smiles :: frags' =>
      if bool_decide (smiles ∈ processed_frags)
      then score_fragments frags' model fragments_features
             processed_frags fragments_scores
      else
        v ← match fragments_features !! smiles with
            | Some v => Ok v
            | None => Raise KeyError
            end;
        s ← score_feature_vector v (probabilities model) (cnt_bins model);
        score_fragments frags' model fragments_features
          (processed_frags ++ [smiles]) (fragments_scores ++ [s])
  end.

(** Line 45 for one fragment: the lookup and the scoring. *)
Definition score_fragment (model : model_t)
    (fragments_features : gmap string (list fl)) (smiles : string)
  : result score_t :=
  v ← match fragments_features !! smiles with
      | Some v => Ok v
      | None => Raise KeyError
      end;
  score_feature_vector v (probabilities model) (cnt_bins model).

(** The first occurrences in [l] of the strings that are not in [seen], in
    the order of [l]. *)
Fixpoint unique_from (seen l : list string) : list string :=
  match l with
  | [] => []
  | x :: l' =>
      if bool_decide (x ∈ seen) then unique_from seen l'
      else x :: unique_from (seen ++ [x]) l'
  end.

(** Lines 40-49 for one molecule.  The scores are Python floats just
    computed, never the object [np.nan] and never [None]: the filter of
    line 49, which tests identity, keeps them all. *)
Definition screen_mol (model : model_t)
    (fragments_features : gmap string (list fl)) (mol : mol_t)
  : result mol_t :=
  fragments_scores ← score_fragments (mol_fragments mol) model
                       fragments_features [] [];
  mret (match fragments_scores with
        | [] => mol
        | _ :: _ => {| mol_name := mol_name mol;
                       mol_fragments := mol_fragments mol;
                       mol_score := Some fragments_scores |}
        end).

Fixpoint screen_mols (model : model_t)
    (fragments_features : gmap string (list fl)) (mols : list mol_t)
  : result (list mol_t) :=
  match mols with
  | [] => Ok []
  | mol :: mols' =>
      mol' ← screen_mol model fragments_features mol;
      rest ← screen_mols model fragments_features mols';
      mret (mol' :: rest)
  end.

(** Line 51: the molecules that have a score, in the order of the file. *)
Definition scored (mols : list mol_t) : list (string * list score_t) :=
  omap (fun mol => match mol_score mol with
                   | Some s => Some (mol_name mol, s)
                   | None => None
                   end) mols.

Definition screen (mols : list mol_t) (model : model_t)
    (fragments_features : gmap string (list fl))
  : result (list (string * list score_t)) :=
  mols' ← screen_mols model fragments_features mols;
  mret (scored mols').

(** ** [get_normalized_features], lines 56-106

    The CSV file is given by its rows, each a list of cells.
    [common.to_float] is not among the sources; the conversion of a cell is
    a parameter [to_float] of the definitions below. *)

(** Lines 65-68: the positions of the cells of [row] that are feature
    names, in the order of the row; [ix] is the position of the first cell
    of [row]. *)
Fixpoint header_ixs (feature_names : list string) (ix : nat)
    (row : list string) : list nat :=
  match row with
  | [] => []
  | c :: row' =>
      if bool_decide (c ∈ feature_names)
      then ix :: header_ixs feature_names (S ix) row'
      else header_ixs feature_names (S ix) row'
  end.

(** Lines 71-72: one cell is appended to every column. *)
Fixpoint append_cells (row : list string) (ixs_uncorr_features : list nat)
    (features : list (list string)) : result (list (list string)) :=
  match ixs_uncorr_features, features with
  | i :: ixs', col :: features' =>
      match row !! i with
      | Some c =>
          rest ← append_cells row ixs' features';
          mret ((col ++ [c]) :: rest)
      | None => Raise IndexError
      end
  | _, _ => Ok features
  end.

(** The body of the loop of line 62 on the state
    [(ixs_uncorr_features, features, fragments)]. *)
Definition read_row (feature_names : list string)
    (st : list nat * list (list string) * list string) (row : list string)
  : result (list nat * list (list string) * list string) :=
  let '(ixs_uncorr_features, features, fragments) := st in
  match row with
  | [] => Ok st
  | c0 :: _ =>
      match ixs_uncorr_features with
      | [] =>
          let ixs := header_ixs feature_names 0 row in
          Ok (ixs, (fun _ => []) <$> ixs, fragments)
      | _ :: _ =>
          cols ← append_cells row ixs_uncorr_features features;
          mret (ixs_uncorr_features, cols, fragments ++ [c0])
      end
  end.

Fixpoint read_rows (feature_names : list string) (rows : list (list string))
    (st : list nat * list (list string) * list string)
  : result (list nat * list (list string) * list string) :=
  match rows with
  | [] => Ok st
  | row :: rows' =>
      st' ← read_row feature_names st row;
      read_rows feature_names rows' st'
  end.

(** Line 79 on one value: the imputation value is looked up only for a
    NaN. *)
Definition impute (imputation_values : list Q) (ix : nat) (x : fl)
  : result fl :=
  if is_nan x
  then match imputation_values !! ix with
       | Some v => Ok (Fin v)
       | None => Raise IndexError
       end
  else Ok x.

Fixpoint mapM {A B : Type} (f : A -> result B) (l : list A)
  : result (list B) :=
  match l with
  | [] => Ok []
  | x :: l' => y ← f x; ys ← mapM f l'; mret (y :: ys)
  end.

(** Lines 78-79; [ix] is the index of the first column of [features]. *)
Fixpoint impute_columns (imputation_values : list Q) (ix : nat)
    (features : list (list fl)) : result (list (list fl)) :=
  match features with
  | [] => Ok []
  | col :: rest =>
      col' ← mapM (impute imputation_values ix) col;
      rest' ← impute_columns imputation_values (S ix) rest;
      mret (col' :: rest')
  end.

(** Lines 87-89: the pairs printed for row [ix] of the matrix. *)
Definition clip_report (ix : nat) (lo hi : Q) (col : list fl)
  : list (nat * nat) :=
  omap id (imap (fun ix1 x =>
                   if fl_lt x (Fin lo) || fl_lt (Fin hi) x
                   then Some (ix, ix1) else None) col).

(** Lines 85-89: [ix] runs over [range(len(mins))]; [mins_rest] are the
    minima from position [ix] on.  The matrix is held as the list of its
    rows, one per selected column of the table. *)
Fixpoint clip_loop (mins_rest : list Q) (ix : nat) (maxs : list Q)
    (feature_matrix : list (list fl)) (printed : list (nat * nat))
  : result (list (list fl) * list (nat * nat)) :=
  match mins_rest with
  | [] => Ok (feature_matrix, printed)
  | lo :: mins' =>
      match feature_matrix !! ix with
      | None => Raise IndexError
      | Some col =>
          match maxs !! ix with
          | None => Raise IndexError
          | Some hi =>
              let col' := fl_clip lo hi <$> col in
              clip_loop mins' (S ix) maxs (<[ix := col']> feature_matrix)
                (printed ++ clip_report ix lo hi col')
          end
      end
  end.

(** Line 90: the transpose of a matrix whose rows all have the length of
    the first one. *)
Definition transpose (feature_matrix : list (list fl)) : list (list fl) :=
  (fun t => (fun col => default NaN (col !! t)) <$> feature_matrix)
    <$> seq 0 (match feature_matrix with col :: _ => length col | [] => 0 end).

(** numpy broadcasting along one axis: equal lengths, or one of them 1. *)
Definition bwidth (a b : nat) : result nat :=
  if (a =? b)%nat then Ok a
  else if (a =? 1)%nat then Ok b
  else if (b =? 1)%nat then Ok a
  else Raise ValueError.

Definition stretch {A : Type} (w : nat) (l : list A) : list A :=
  if (length l =? w)%nat then l
  else match l with
       | [x] => replicate w x
       | _ => l
       end.

(** Lines 91-92 on a matrix with rows of length [k]. *)
Definition scale_rows (k : nat) (feature_matrix : list (list fl))
    (mins maxs : list Q) : result (list (list fl)) :=
  w1 ← bwidth k (length mins);
  w2 ← bwidth (length maxs) (length mins);
  w ← bwidth w1 w2;
  let den := stretch w (zip_with (fun hi lo => Fin (hi - lo))
                          (stretch w2 maxs) (stretch w2 mins)) in
  mret ((fun row =>
           zip_with fl_div
             (stretch w (zip_with fl_sub (stretch w1 row)
                           (stretch w1 (Fin <$> mins))))
             den) <$> feature_matrix).

(** Lines 93-95. *)
Fixpoint fill_dict (fragments : list string) (ix : nat)
    (feature_matrix : list (list fl)) (d : gmap string (list fl))
  : result (gmap string (list fl)) :=
  match fragments with
  | [] => Ok d
  | frag :: fragments' =>
      match feature_matrix !! ix with
      | Some row => fill_dict fragments' (S ix) feature_matrix (<[frag := row]> d)
      | None => Raise IndexError
      end
  end.

(** The function: the dict it returns and the pairs it prints. *)
Definition get_normalized_features (to_float : string -> fl)
    (rows : list (list string)) (model : model_t)
  : result (gmap string (list fl) * list (nat * nat)) :=
  st ← read_rows (features_names model) rows ([], [], []);
  let features := st.1.2 in
  let fragments := st.2 in
  features ← impute_columns (imputation_values (normalization model)) 0
               ((fun x : list string => to_float <$> x) <$> features);
  clipped ← clip_loop (mins (normalization model)) 0
              (maxs (normalization model)) features [];
  let feature_matrix := clipped.1 in
  let printed := clipped.2 in
  feature_matrix ← scale_rows (length feature_matrix) (transpose feature_matrix)
                     (mins (normalization model)) (maxs (normalization model));
  fragments_features ← fill_dict fragments 0 feature_matrix ∅;
  mret (fragments_features, printed).

(** Modelled from the spec: [common.to_float] is not among the sources.  A
    stand-in for the examples, after the spec's "missing/unparseable raw
    value": a string of decimal digits is read as that number, anything else
    as NaN. *)
Definition digit_of (a : ascii) : option Z :=
  let n := nat_of_ascii a in
  if ((48 <=? n) && (n <=? 57))%nat then Some (Z.of_nat (n - 48)) else None.

Fixpoint read_digits (s : string) (acc : Z) : option Z :=
  match s with
  | EmptyString => Some acc
  | String a s' =>
      match digit_of a with
      | Some d => read_digits s' (10 * acc + d)%Z
      | None => None
      end
  end.

Definition to_float_digits (s : string) : fl :=
  match s with
  | EmptyString => NaN
  | _ => match read_digits s 0 with
         | Some n => Fin (inject_Z n)
         | None => NaN
         end
  end.

(** *** Normalization, row by row

    What [get_normalized_features] computes for one data row, written
    without the matrix; the theorems below relate it to the function. *)

(** The cell at position [i] of a row. *)
Definition cell (i : nat) (row : list string) : string :=
  default EmptyString (row !! i).

(** Imputation, clipping and scaling of one value with the values [v],
    [lo], [hi] of its column. *)
Definition normalize_value (v lo hi : Q) (x : fl) : fl :=
  fl_div (fl_sub (fl_clip lo hi (if is_nan x then Fin v else x)) (Fin lo))
         (Fin (hi - lo)).

(** For each selected column: its position in the table, and the
    imputation value, minimum and maximum applied to it. *)
Definition column_params (ixs : list nat) (norm : normalization_t)
  : list (nat * Q * Q * Q) :=
  zip (zip (zip ixs (imputation_values norm)) (mins norm)) (maxs norm).

Definition normalize_row (to_float : string -> fl)
    (P : list (nat * Q * Q * Q)) (row : list string) : list fl :=
  (fun p => normalize_value p.1.1.2 p.1.2 p.2 (to_float (cell p.1.1.1 row)))
    <$> P.

Definition normalized_table (to_float : string -> fl)
    (P : list (nat * Q * Q * Q)) (data : list (list string))
  : gmap string (list fl) :=
  fold_left (fun d row => <[cell 0 row := normalize_row to_float P row]> d)
            (filter (fun r => r <> []) data) ∅.

(** The pairs printed by lines 87-89, column by column. *)
Definition printed_pairs (to_float : string -> fl)
    (P : list (nat * Q * Q * Q)) (data : list (list string))
  : list (nat * nat) :=
  concat (imap (fun j p =>
                  clip_report j p.1.2 p.2
                    ((fun r => fl_clip p.1.2 p.2
                                 (if is_nan (to_float (cell p.1.1.1 r))
                                  then Fin p.1.1.2
                                  else to_float (cell p.1.1.1 r)))
                       <$> filter (fun r => r <> []) data))
               P).

(** Selection by name, as the specification words it: the column of feature
    number [j] is the first column of the table whose header cell is
    [feature_names[j]]. *)
Fixpoint index_of (x : string) (l : list string) : nat :=
  match l with
  | [] => 0
  | y :: l' => if decide (x = y) then 0 else S (index_of x l')
  end.

Definition by_name_params (feature_names header : list string)
    (norm : normalization_t) : list (nat * Q * Q * Q) :=
  column_params ((fun n => index_of n header) <$> feature_names) norm.

(** ** [main], lines 109-125

    The files written by [common.fragments_extraction] and
    [common.descriptors_extraction] are given by their contents, the
    molecules [mols] and the table [rows]; the result is what lines 121-122
    write, a molecule name and its score per line. *)
Definition main (to_float : string -> fl) (mols : list mol_t)
    (rows : list (list string)) (model : model_t)
  : result (list (string * list score_t)) :=
  fragments_features ← get_normalized_features to_float rows model;
  screen mols model fragments_features.1.

(** * Properties *)

(** ** Numbers and the overlap test *)

Lemma Qltb_lt (x y : Q) : Qltb x y = true <-> x < y.
Proof.
  unfold Qltb. rewrite negb_true_iff.
  destruct (Qle_bool y x) eqn:E.
  - apply Qle_bool_iff in E. split; [discriminate|]. intros H.
    exfalso. apply (Qlt_not_le _ _ H E).
  - split; [intros _|reflexivity].
    apply Qnot_le_lt. intros H. apply Qle_bool_iff in H. congruence.
Qed.

Lemma Qltb_ge (x y : Q) : Qltb x y = false <-> y <= x.
Proof.
  unfold Qltb. rewrite negb_false_iff. apply Qle_bool_iff.
Qed.

Lemma py_min_spec (a b : Q) :
  (b < a /\ py_min a b = b) \/ (a <= b /\ py_min a b = a).
Proof.
  unfold py_min. destruct (Qltb b a) eqn:E.
  - left. split; [by apply Qltb_lt|done].
  - right. split; [by apply Qltb_ge|done].
Qed.

Lemma py_max_spec (a b : Q) :
  (a < b /\ py_max a b = b) \/ (b <= a /\ py_max a b = a).
Proof.
  unfold py_max. destruct (Qltb a b) eqn:E.
  - left. split; [by apply Qltb_lt|done].
  - right. split; [by apply Qltb_ge|done].
Qed.

Lemma py_min_self (a : Q) : py_min a a = a.
Proof. unfold py_min. by destruct (Qltb a a). Qed.

Lemma py_max_self (a : Q) : py_max a a = a.
Proof. unfold py_max. by destruct (Qltb a a). Qed.

Lemma py_bool_true (x : Q) : py_bool x = true <-> ~ x == 0.
Proof.
  unfold py_bool. rewrite negb_true_iff.
  destruct (Qeq_bool x 0) eqn:E.
  - apply Qeq_bool_iff in E. split; [discriminate|tauto].
  - split; [|reflexivity]. intros _ H. apply Qeq_bool_iff in H. congruence.
Qed.

(** The truth value of [get_overlap] is a strict comparison of the larger
    low end with the smaller high end. *)
Lemma get_overlap_true (a b : interval_t) :
  py_bool (get_overlap a b) = true <->
  py_max (fst a) (fst b) < py_min (snd a) (snd b).
Proof.
  rewrite py_bool_true. unfold get_overlap.
  set (d := py_min (snd a) (snd b) - py_max (fst a) (fst b)).
  assert (Hd : 0 < d <-> py_max (fst a) (fst b) < py_min (snd a) (snd b)).
  { unfold d. split; intros H.
    - apply Qlt_minus_iff. exact H.
    - apply Qlt_minus_iff in H. exact H. }
  destruct (py_max_spec 0 d) as [[Hlt ->]|[Hle ->]].
  - split; [intros _; by apply Hd|].
    intros _ Heq. rewrite Heq in Hlt. by apply Qlt_irrefl in Hlt.
  - split; [intros H; by destruct H|].
    intros H. apply Hd in H. exfalso. apply (Qlt_not_le _ _ H Hle).
Qed.

(** C1, counterexample.  The closed intervals (0,1) and (1,2) share the
    point 1, and the result of [get_overlap] on them is 0, which reads as
    false. *)
Lemma get_overlap_touching_counterexample :
  fst (0, 1) <= snd (0, 1) /\ fst (1, 2) <= snd (1, 2) /\
  share_point (0, 1) (1, 2) /\
  py_bool (get_overlap (0, 1) (1, 2)) = false.
Proof.
  split; [done|]. split; [done|]. split; [|reflexivity].
  exists 1. cbn. repeat split; discriminate.
Qed.

(** C1, amended.  For all intervals, the result of [get_overlap] reads as
    true exactly when the two intervals share a segment of positive
    length, that is when min(a1,b1) - max(a0,b0) > 0; intervals that only
    touch, and zero-width intervals, give false. *)
Theorem get_overlap_iff_share_segment (a b : interval_t) :
  py_bool (get_overlap a b) = true <-> share_segment a b.
Proof.
  rewrite get_overlap_true. unfold share_segment.
  destruct a as [a0 a1], b as [b0 b1]; cbn [fst snd].
  split.
  - intros H. exists (py_max a0 b0), (py_min a1 b1).
    destruct (py_max_spec a0 b0) as [[? E1]|[? E1]],
             (py_min_spec a1 b1) as [[? E2]|[? E2]];
      rewrite E1, E2 in *; repeat split; lra.
  - intros (p & q & Hpq & ? & ? & ? & ?).
    destruct (py_max_spec a0 b0) as [[? E1]|[? E1]],
             (py_min_spec a1 b1) as [[? E2]|[? E2]];
      rewrite E1, E2; lra.
Qed.

(** ** The merge loops *)

Lemma matches_matchk v1 v2 : matches v1 v2 = matchk (key v1) (key v2).
Proof. reflexivity. Qed.

Lemma widen_key v1 v2 : key v1 = key v2 -> key (widen v1 v2) = key v2.
Proof.
  destruct v1 as [n1 r1 [l1 h1] c1], v2 as [n2 r2 [l2 h2] c2].
  unfold key, widen; cbn. intros [= -> -> ->].
  by rewrite py_min_self, py_max_self.
Qed.

Lemma scan_nomatch val1 v1 fs (σ : store) b :
  σ !! val1 = Some v1 ->
  (forall r, r ∈ fs -> exists v, σ !! r = Some v /\ matches v1 v = false) ->
  scan val1 fs σ b = Some (σ, b).
Proof.
  intros H1. induction fs as [|val2 fs IH]; intros Hfs; [done|].
  cbn. rewrite H1.
  destruct (Hfs val2) as (v2 & -> & ->); [left|].
  apply IH. intros r Hr. apply Hfs. by right.
Qed.

(** The inner loop when [val1] is not itself held by [features] and no dict
    is held twice: every matching dict is widened once, from the unchanged
    contents of [val1]. *)
Lemma scan_fresh val1 v1 fs (σ : store) b :
  σ !! val1 = Some v1 -> val1 ∉ fs -> NoDup fs ->
  (forall r, r ∈ fs -> is_Some (σ !! r)) ->
  exists σ',
    scan val1 fs σ b =
      Some (σ', b || existsb (fun r => from_option (matches v1) false (σ !! r)) fs)
    /\ (forall r, r ∉ fs -> σ' !! r = σ !! r)
    /\ (forall r v, r ∈ fs -> σ !! r = Some v ->
          σ' !! r = Some (if matches v1 v then widen v1 v else v)).
Proof.
  intros H1 Hnin Hnd. revert σ b H1.
  induction Hnd as [|val2 fs Hval2 Hnd IH]; intros σ b H1 Hall.
  - exists σ. cbn. rewrite orb_false_r. split; [done|]. split; [done|].
    intros r v Hr. by apply elem_of_nil in Hr.
  - apply not_elem_of_cons in Hnin as [Hne Hnin].
    destruct (Hall val2) as [v2 H2]; [left|].
    cbn. rewrite H1, H2. cbn.
    destruct (matches v1 v2) eqn:Hm.
    + destruct (IH Hnin (<[val2 := widen v1 v2]> σ) true) as (σ' & Hs & Hout & Hin).
      { by rewrite lookup_insert_ne. }
      { intros r Hr. destruct (decide (val2 = r)) as [->|Hd].
        - rewrite lookup_insert_eq. eauto.
        - rewrite lookup_insert_ne by done. apply Hall. by right. }
      exists σ'. split.
      { rewrite Hs. cbn. by rewrite orb_true_r. }
      split.
      { intros r Hr. apply not_elem_of_cons in Hr as [Hr1 Hr2].
        rewrite Hout by done. by rewrite lookup_insert_ne. }
      intros r v Hr Hv. apply elem_of_cons in Hr as [->|Hr].
      * rewrite Hout by done. rewrite lookup_insert_eq.
        rewrite H2 in Hv. injection Hv as <-. by rewrite Hm.
      * apply Hin; [done|]. rewrite lookup_insert_ne; [done|].
        intros ->. done.
    + destruct (IH Hnin σ b H1) as (σ' & Hs & Hout & Hin).
      { intros r Hr. apply Hall. by right. }
      exists σ'. split.
      { rewrite Hs. f_equal. }
      split.
      { intros r Hr. apply not_elem_of_cons in Hr as [Hr1 Hr2]. by apply Hout. }
      intros r v Hr Hv. apply elem_of_cons in Hr as [->|Hr].
      * rewrite Hout by done. rewrite Hv. rewrite H2 in Hv. injection Hv as <-.
        by rewrite Hm.
      * by apply Hin.
Qed.

Lemma keys_lookup_Some (σ : store) r k :
  keys σ !! r = Some k <-> exists v, σ !! r = Some v /\ key v = k.
Proof.
  unfold keys. rewrite lookup_fmap. destruct (σ !! r) as [v|]; cbn.
  - split; [intros [= <-]; eauto|]. by intros (? & [= <-] & <-).
  - split; [done|]. by intros (? & ? & _).
Qed.

Lemma keys_insert_same (σ : store) r v v' :
  σ !! r = Some v -> key v' = key v -> keys (<[r := v']> σ) = keys σ.
Proof.
  intros Hr Hk. unfold keys. rewrite fmap_insert. apply insert_id.
  by rewrite lookup_fmap, Hr, Hk.
Qed.

Lemma occ_cons_eq fs r : occ (r :: fs) r = (occ fs r + 1)%Z.
Proof. unfold occ. rewrite count_occ_cons_eq by done. lia. Qed.

Lemma occ_cons_ne fs r r' : r' <> r -> occ (r' :: fs) r = occ fs r.
Proof. intros H. unfold occ. by rewrite count_occ_cons_neq. Qed.

Lemma occ_nonneg fs r : (0 <= occ fs r)%Z.
Proof. unfold occ. lia. Qed.

(** The inner loop when [val1] matches only dicts with its own name and
    interval: names and intervals stay as they are, and the count of a dict
    grows by the number of times [features] holds it, if it matches. *)
Lemma scan_isolated val1 k1 fs : forall (σ : store) b,
  keys σ !! val1 = Some k1 ->
  (forall r, r ∈ fs ->
     exists k, keys σ !! r = Some k /\ (matchk k1 k = true -> k = k1)) ->
  exists σ',
    scan val1 fs σ b = Some (σ', b || existsb (mk (keys σ) val1) fs)
    /\ keys σ' = keys σ
    /\ (forall r v, σ !! r = Some v ->
          exists v', σ' !! r = Some v'
            /\ cnt v' = (cnt v + bump (keys σ) val1 fs r)%Z).
Proof.
  induction fs as [|val2 fs IH]; intros σ b H1 Hfs.
  - exists σ. cbn. rewrite orb_false_r. do 2 (split; [done|]).
    intros r v Hr. exists v. split; [done|]. unfold bump, occ. cbn.
    destruct (mk _ _ _); lia.
  - destruct (Hfs val2) as (k2 & H2 & Hiso); [left|].
    pose proof H1 as H1'. pose proof H2 as H2'.
    apply keys_lookup_Some in H1' as (v1 & Hv1 & Hk1).
    apply keys_lookup_Some in H2' as (v2 & Hv2 & Hk2).
    assert (Hmk : mk (keys σ) val1 val2 = matchk k1 k2).
    { unfold mk. by rewrite H1, H2. }
    cbn. rewrite Hv1, Hv2, matches_matchk, Hk1, Hk2, Hmk.
    destruct (matchk k1 k2) eqn:Hm.
    + specialize (Hiso eq_refl). subst k2.
      assert (Hkw : key (widen v1 v2) = key v2).
      { apply widen_key. congruence. }
      pose proof (keys_insert_same σ val2 v2 _ Hv2 Hkw) as Hks.
      destruct (IH (<[val2 := widen v1 v2]> σ) true) as (σ' & Hs & Hk' & Hc).
      { by rewrite Hks. }
      { intros r Hr. rewrite Hks. apply Hfs. by right. }
      exists σ'. rewrite Hs, Hks in *. split; [by rewrite orb_true_r|].
      split; [done|].
      intros r v Hr. destruct (decide (r = val2)) as [->|Hne].
      * destruct (Hc val2 (widen v1 v2)) as (v' & Hv' & Hcnt).
        { by rewrite lookup_insert_eq. }
        exists v'. split; [done|]. rewrite Hcnt.
        rewrite Hv2 in Hr. injection Hr as <-.
        unfold bump. rewrite Hmk, occ_cons_eq. cbn. lia.
      * destruct (Hc r v) as (v' & Hv' & Hcnt).
        { by rewrite lookup_insert_ne. }
        exists v'. split; [done|]. rewrite Hcnt.
        unfold bump. by rewrite occ_cons_ne.
    + destruct (IH σ b H1) as (σ' & Hs & Hk' & Hc).
      { intros r Hr. apply Hfs. by right. }
      exists σ'. rewrite Hs. do 2 (split; [done|]).
      intros r v Hr. destruct (Hc r v Hr) as (v' & Hv' & Hcnt).
      exists v'. split; [done|]. rewrite Hcnt.
      unfold bump. destruct (decide (r = val2)) as [->|Hne].
      * rewrite Hmk. by destruct (mk (keys σ) val1 val2).
      * by rewrite occ_cons_ne.
Qed.

Lemma pend_nonneg κ F S r : (0 <= pend κ F S r)%Z.
Proof.
  induction S as [|s S IH]; cbn; [lia|].
  unfold bump. pose proof (occ_nonneg F r). destruct (mk κ s r); lia.
Qed.

Lemma occ_snoc_ne F s r : s <> r -> occ (F ++ [s]) r = occ F r.
Proof.
  intros H. unfold occ. rewrite count_occ_app. cbn.
  destruct (Nat.eq_dec s r); [done|]. f_equal. lia.
Qed.

Lemma pend_snoc κ F S s r :
  (s = r -> Forall (fun s' => mk κ s' s = false) S) ->
  pend κ (F ++ [s]) S r = pend κ F S r.
Proof.
  intros H. induction S as [|s' S IH]; [done|].
  cbn. rewrite IH.
  2:{ intros E. specialize (H E). by inversion H. }
  f_equal. unfold bump. destruct (decide (s = r)) as [->|Hne].
  - specialize (H eq_refl). inversion H as [|? ? Hm ?]; subst. by rewrite Hm.
  - by rewrite occ_snoc_ne.
Qed.

(** The outer loop under the same isolation: every count ends within its
    budget, the count before plus the matches still to come. *)
Lemma merge_features_budget κ S : forall (σ : store) F,
  keys σ = κ ->
  (forall r, r ∈ F ++ S -> is_Some (κ !! r)) ->
  (forall r1 r2 k1 k2, r1 ∈ S -> r2 ∈ F ++ S ->
     κ !! r1 = Some k1 -> κ !! r2 = Some k2 ->
     matchk k1 k2 = true -> k2 = k1) ->
  later_free κ S ->
  (forall r v, r ∈ F ++ S -> σ !! r = Some v ->
     (cnt v + pend κ F S r <= 2)%Z) ->
  exists σ' F',
    merge_features σ F S = Some (σ', F')
    /\ keys σ' = κ
    /\ (forall r, r ∈ F' -> r ∈ F ++ S)
    /\ (forall r v, r ∈ F' -> σ' !! r = Some v -> (cnt v <= 2)%Z).
Proof.
  induction S as [|s S IH]; intros σ F Hκ Halloc Hiso Hfree Hbud.
  - exists σ, F. cbn. split; [done|]. split; [done|].
    split; [intros r Hr; by rewrite app_nil_r|].
    intros r v Hr Hv. rewrite app_nil_r in Hbud.
    specialize (Hbud r v Hr Hv). cbn in Hbud. lia.
  - destruct Hfree as [Hfs Hfree].
    destruct (Halloc s) as [k1 Hk1]; [set_solver|].
    destruct (scan_isolated s k1 F σ false) as (σ1 & Hscan & Hκ1 & Hcnt).
    { by rewrite Hκ. }
    { intros r Hr. rewrite Hκ. destruct (Halloc r) as [k Hk]; [set_solver|].
      exists k. split; [done|]. intros Hm.
      apply (Hiso s r k1 k); [set_solver|set_solver|done|done|done]. }
    cbn [merge_features]. rewrite Hscan. cbn [orb]. rewrite Hκ in *.
    set (F1 := if existsb (mk κ s) F then F else F ++ [s]).
    assert (HF1 : forall r, r ∈ F1 ++ S -> r ∈ F ++ s :: S).
    { intros r. unfold F1. destruct (existsb _ _); set_solver. }
    destruct (IH σ1 F1) as (σ' & F' & Hm & Hκ' & Hsub & Hfin).
    + done.
    + intros r Hr. apply Halloc. by apply HF1.
    + intros r1 r2 k k' Hr1 Hr2. apply Hiso; [set_solver|by apply HF1].
    + done.
    + intros r v' Hr Hv'.
      assert (exists v, σ !! r = Some v) as [v Hv].
      { destruct (Halloc r) as [k Hk]; [by apply HF1|].
        rewrite <- Hκ in Hk. apply keys_lookup_Some in Hk as (v & ? & _). eauto. }
      destruct (Hcnt r v Hv) as (v'' & Hv'' & Hc).
      rewrite Hv' in Hv''. injection Hv'' as <-.
      specialize (Hbud r v (HF1 r Hr) Hv). cbn [pend] in Hbud.
      assert (pend κ F1 S r = pend κ F S r) as ->; [|lia].
      unfold F1. destruct (existsb _ _); [done|].
      apply pend_snoc. by intros ->.
    + exists σ', F'. split; [done|]. split; [done|]. split.
      * intros r Hr. apply HF1. by apply Hsub.
      * done.
Qed.

(** Allocation: the new references are distinct, were unused, point to the
    given records in order, and nothing else changes. *)
Lemma alloc_all_spec vs : forall (σ σ' : store) rs,
  alloc_all σ vs = (σ', rs) ->
  NoDup rs
  /\ (forall r, r ∈ rs -> σ !! r = None)
  /\ (forall r, r ∉ rs -> σ' !! r = σ !! r)
  /\ Forall2 (fun r v => σ' !! r = Some v) rs vs.
Proof.
  induction vs as [|v vs IH]; intros σ σ' rs H; cbn in H.
  - injection H as <- <-. split; [constructor|].
    split; [intros r Hr; by apply elem_of_nil in Hr|]. split; [done|constructor].
  - destruct (alloc_all _ vs) as [σ1 rs1] eqn:E. injection H as <- <-.
    destruct (IH _ _ _ E) as (Hnd & Hfresh & Hout & Hin).
    set (r0 := fresh (dom σ)) in *.
    assert (Hr0 : σ !! r0 = None).
    { apply not_elem_of_dom. apply is_fresh. }
    assert (Hr0n : r0 ∉ rs1).
    { intros Hr. specialize (Hfresh _ Hr). by rewrite lookup_insert_eq in Hfresh. }
    split; [by constructor|]. split; [|split].
    + intros r Hr. apply elem_of_cons in Hr as [->|Hr]; [done|].
      specialize (Hfresh _ Hr). destruct (decide (r0 = r)) as [->|Hne]; [done|].
      by rewrite lookup_insert_ne in Hfresh.
    + intros r Hr. apply not_elem_of_cons in Hr as [Hr1 Hr2].
      rewrite Hout by done. by rewrite lookup_insert_ne.
    + constructor; [|done]. rewrite Hout by done. by rewrite lookup_insert_eq.
Qed.

(** ** Claims about [merge_features] *)


(** The running list only grows: what it held stays in place. *)
Lemma merge_features_prefix S : forall (σ σ' : store) F F',
  merge_features σ F S = Some (σ', F') -> exists extra, F' = F ++ extra.
Proof.
  induction S as [|s S IH]; intros σ σ' F F' H; cbn in H.
  - injection H as <- <-. exists []. by rewrite app_nil_r.
  - destruct (scan s F σ false) as [[σ1 b]|]; [|done].
    apply IH in H as [extra ->]. destruct b; [by eexists|].
    exists (s :: extra). by rewrite <- app_assoc.
Qed.

(** Records that match nothing held so far are all appended, and no dict
    changes. *)
Lemma merge_features_all_new S : forall (σ : store) P,
  NoDup (P ++ S) ->
  (forall r, r ∈ P ++ S -> is_Some (σ !! r)) ->
  (forall s r vs vr, s ∈ S -> r ∈ P ++ S -> r <> s ->
     σ !! s = Some vs -> σ !! r = Some vr -> matches vs vr = false) ->
  merge_features σ P S = Some (σ, P ++ S).
Proof.
  induction S as [|s S IH]; intros σ P Hnd Hall Hno; cbn.
  - by rewrite app_nil_r.
  - destruct (Hall s) as [vs Hvs]; [set_solver|].
    apply NoDup_app in Hnd as Hnd'. destruct Hnd' as (HP & Hdisj & HS).
    rewrite (scan_nomatch s vs P σ false Hvs).
    2:{ intros r Hr. destruct (Hall r) as [vr Hvr]; [set_solver|].
        exists vr. split; [done|]. apply (Hno s r); [set_solver|set_solver| |done|done].
        intros ->. apply (Hdisj s Hr). left. }
    replace (P ++ s :: S) with ((P ++ [s]) ++ S) by (by rewrite <- app_assoc).
    apply IH.
    + by rewrite <- app_assoc.
    + intros r Hr. apply Hall. by rewrite <- app_assoc in Hr.
    + intros s' r vs' vr Hs' Hr. rewrite <- app_assoc in Hr. cbn in Hr.
      apply Hno; [by right|done].
Qed.

Lemma pend_zero κ F S r :
  (forall s, s ∈ S -> mk κ s r = false) -> pend κ F S r = 0%Z.
Proof.
  induction S as [|s S IH]; intros H; [done|].
  cbn. rewrite IH by (intros; apply H; by right).
  unfold bump. rewrite H by left. done.
Qed.

Lemma pend_le_occ κ F S r :
  (forall j j' s s', S !! j = Some s -> S !! j' = Some s' ->
     mk κ s r = true -> mk κ s' r = true -> j = j') ->
  (pend κ F S r <= occ F r)%Z.
Proof.
  induction S as [|s S IH]; intros H; cbn.
  - apply occ_nonneg.
  - unfold bump. destruct (mk κ s r) eqn:E.
    + rewrite pend_zero; [lia|].
      intros s' Hs'. apply list_elem_of_lookup in Hs' as [j Hj].
      destruct (mk κ s' r) eqn:E'; [|done].
      specialize (H 0%nat (Datatypes.S j) s s' eq_refl Hj E E'). done.
    + cbn. apply IH. intros j j' s1 s2 H1 H2 M1 M2.
      specialize (H (Datatypes.S j) (Datatypes.S j') s1 s2 H1 H2 M1 M2). by injection H.
Qed.

Lemma later_free_lookup κ S :
  (forall j j' s s', j <> j' -> S !! j = Some s -> S !! j' = Some s' ->
     mk κ s' s = false) ->
  later_free κ S.
Proof.
  induction S as [|s S IH]; intros H; cbn; [done|]. split.
  - apply Forall_forall. intros s' Hs'.
    apply list_elem_of_lookup in Hs' as [j Hj].
    apply (H 0%nat (Datatypes.S j) s s'); done.
  - apply IH. intros j j' s1 s2 Hne H1 H2.
    apply (H (Datatypes.S j) (Datatypes.S j') s1 s2); [lia|done|done].
Qed.

Lemma occ_NoDup F r : NoDup F -> (occ F r <= 1)%Z.
Proof.
  intros H. unfold occ.
  pose proof (proj1 (List.NoDup_count_occ Nat.eq_dec F)) as H'.
  rewrite <- NoDup_ListNoDup in H'. specialize (H' H r). lia.
Qed.

Lemma occ_notin F r : r ∉ F -> occ F r = 0%Z.
Proof.
  intros H. unfold occ.
  rewrite (proj1 (List.count_occ_not_In Nat.eq_dec F r)); [done|].
  by rewrite <- list_elem_of_In.
Qed.

Lemma mk_keys (σ : store) s r v1 v2 :
  σ !! s = Some v1 -> σ !! r = Some v2 -> mk (keys σ) s r = matches v1 v2.
Proof.
  intros H1 H2. unfold mk, keys. rewrite !lookup_fmap, H1, H2. cbn.
  by rewrite matches_matchk.
Qed.

(** Merging a list of references [S] into a list [F] when both spell out,
    position by position, the same records [vs]: if records at different
    positions never match and every count is 1, a dict is widened at most
    once. *)
Lemma merge_features_same_records (σ : store) F S vs :
  Forall2 (fun r v => σ !! r = Some v) F vs ->
  Forall2 (fun r v => σ !! r = Some v) S vs ->
  NoDup F ->
  Forall (fun v => cnt v = 1%Z) vs ->
  (forall i j vi vj, i <> j -> vs !! i = Some vi -> vs !! j = Some vj ->
     matches vi vj = false) ->
  exists σ' F',
    merge_features σ F S = Some (σ', F')
    /\ (forall r, r ∈ F' -> r ∈ F ++ S)
    /\ (forall r, r ∈ F' -> exists v, σ' !! r = Some v /\ (cnt v <= 2)%Z).
Proof.
  intros HF HS HndF Hcnt Hno.
  assert (HposS : forall j s, S !! j = Some s ->
            exists v, vs !! j = Some v /\ σ !! s = Some v).
  { intros j s Hj. destruct (Forall2_lookup_l _ _ _ _ _ HS Hj) as (v & ? & ?). eauto. }
  assert (Hpos : forall r, r ∈ F ++ S ->
            exists i v, vs !! i = Some v /\ σ !! r = Some v).
  { intros r Hr. apply elem_of_app in Hr as [Hr|Hr];
      apply list_elem_of_lookup in Hr as [i Hi].
    - destruct (Forall2_lookup_l _ _ _ _ _ HF Hi) as (v & ? & ?). eauto.
    - destruct (HposS i r Hi) as (v & ? & ?). eauto. }
  assert (Hsame : forall j s r v1 v2, S !! j = Some s -> r ∈ F ++ S ->
            σ !! s = Some v1 -> σ !! r = Some v2 -> matches v1 v2 = true ->
            vs !! j = Some v2).
  { intros j s r v1 v2 Hj Hr H1 H2 Hm.
    destruct (HposS j s Hj) as (v1' & Hv1 & Hs1).
    destruct (Hpos r Hr) as (i & v2' & Hv2 & Hs2).
    assert (v1' = v1) as -> by congruence. assert (v2' = v2) as -> by congruence.
    destruct (decide (j = i)) as [->|Hne]; [done|].
    rewrite (Hno j i v1 v2 Hne Hv1 Hv2) in Hm. done. }
  destruct (merge_features_budget (keys σ) S σ F eq_refl) as (σ' & F' & Hm & Hk & Hsub & Hb).
  - intros r Hr. destruct (Hpos r Hr) as (i & v & _ & Hv).
    unfold keys. rewrite lookup_fmap, Hv. by eexists.
  - intros r1 r2 k1 k2 Hr1 Hr2 Hk1 Hk2 Hm.
    apply keys_lookup_Some in Hk1 as (v1 & Hv1 & <-).
    apply keys_lookup_Some in Hk2 as (v2 & Hv2 & <-).
    apply list_elem_of_lookup in Hr1 as [j Hj].
    rewrite <- matches_matchk in Hm.
    pose proof (Hsame j r1 r2 v1 v2 Hj Hr2 Hv1 Hv2 Hm) as E.
    destruct (HposS j r1 Hj) as (v1' & Hv1' & Hs1). congruence.
  - apply later_free_lookup. intros j j' s s' Hne Hj Hj'.
    destruct (HposS j s Hj) as (v & Hv & Hs).
    destruct (HposS j' s' Hj') as (v' & Hv' & Hs').
    rewrite (mk_keys σ s' s v' v Hs' Hs). apply (Hno j' j); [congruence|done|done].
  - intros r v Hr Hv. destruct (Hpos r Hr) as (i & v' & Hi & Hv').
    assert (v' = v) as -> by congruence.
    assert (cnt v = 1%Z) as ->.
    { rewrite Forall_forall in Hcnt. apply Hcnt. by eapply list_elem_of_lookup_2. }
    pose proof (occ_NoDup F r HndF).
    assert (pend (keys σ) F S r <= occ F r)%Z; [|lia].
    apply pend_le_occ. intros j j' s s' Hj Hj' M M'.
    destruct (HposS j s Hj) as (v1 & Hv1 & Hs1).
    destruct (HposS j' s' Hj') as (v2 & Hv2 & Hs2).
    rewrite (mk_keys σ s r v1 v Hs1 Hv) in M.
    rewrite (mk_keys σ s' r v2 v Hs2 Hv) in M'.
    pose proof (Hsame j s r v1 v Hj Hr Hs1 Hv M) as E1.
    pose proof (Hsame j' s' r v2 v Hj' Hr Hs2 Hv M') as E2.
    destruct (decide (j = j')) as [|Hne]; [done|].
    assert (v1 = v) as -> by congruence. assert (v2 = v) as -> by congruence.
    rewrite (Hno j j' v v Hne Hv1 Hv2) in M. done.
  - exists σ', F'. do 2 (split; [done|]). intros r Hr.
    destruct (Hpos r (Hsub r Hr)) as (i & v & _ & Hv).
    assert (Hkr : keys σ' !! r = Some (key v)).
    { rewrite Hk. unfold keys. by rewrite lookup_fmap, Hv. }
    apply keys_lookup_Some in Hkr as (v' & Hv' & _). eauto.
Qed.

Lemma Forall2_store_mono (σ σ' : store) L vs :
  (forall r, r ∈ L -> σ' !! r = σ !! r) ->
  Forall2 (fun r v => σ !! r = Some v) L vs ->
  Forall2 (fun r v => σ' !! r = Some v) L vs.
Proof.
  intros H HF. induction HF as [|r v L vs Hr HF IH]; constructor.
  - rewrite H; [done|left].
  - apply IH. intros; apply H. by right.
Qed.

Lemma merge_features_first (σ : store) L vs :
  NoDup L ->
  Forall2 (fun r v => σ !! r = Some v) L vs ->
  (forall i j vi vj, i <> j -> vs !! i = Some vi -> vs !! j = Some vj ->
     matches vi vj = false) ->
  merge_features σ [] L = Some (σ, L).
Proof.
  intros Hnd HF Hno.
  apply (merge_features_all_new L σ []); cbn; [done| |].
  - intros r Hr. apply list_elem_of_lookup in Hr as [i Hi].
    destruct (Forall2_lookup_l _ _ _ _ _ HF Hi) as (v & ? & ?). eauto.
  - intros s r v1 v2 Hs Hr Hne H1 H2.
    apply list_elem_of_lookup in Hs as [j Hj].
    apply list_elem_of_lookup in Hr as [i Hi].
    destruct (Forall2_lookup_l _ _ _ _ _ HF Hj) as (v1' & ? & ?).
    destruct (Forall2_lookup_l _ _ _ _ _ HF Hi) as (v2' & ? & ?).
    apply (Hno j i); [congruence|congruence|congruence].
Qed.

(** C4, counterexample.  A model list holding two records of the same
    name with overlapping intervals, A on (0,2) and A on (1,3): after the
    list is merged into the empty list and merged again, the single
    resulting entry has count 4, whether the very same dicts are merged
    twice or the list is read again into new dicts. *)
Lemma merge_twice_counterexample :
  let vs := [new_feature "A" 1 (0, 2); new_feature "A" 1 (1, 3)] in
  (exists (σ σ1 σ2 : store) L r v,
      alloc_all ∅ vs = (σ, L)
      /\ merge_features σ [] L = Some (σ1, [r])
      /\ merge_features σ1 [r] L = Some (σ2, [r])
      /\ σ2 !! r = Some v /\ cnt v = 4%Z)
  /\ (exists (σ2 : store) r v,
        merge_models ∅ [] [vs; vs] = Some (σ2, [r])
        /\ σ2 !! r = Some v /\ cnt v = 4%Z).
Proof.
  split.
  - eexists _, _, _, _, _, _. split; [vm_compute; reflexivity|].
    split; [vm_compute; reflexivity|]. split; [vm_compute; reflexivity|].
    split; [vm_compute; reflexivity|]. reflexivity.
  - eexists _, _, _. split; [vm_compute; reflexivity|].
    split; [vm_compute; reflexivity|]. reflexivity.
Qed.

(** C4, amended.  For a model list whose records all have count 1 (as
    [read_model] builds them) and in which no two records at different
    positions have the same name and overlapping intervals: merging the
    list into the empty list leaves the list as it is, and merging it a
    second time, be it the same dicts or the list read again into new
    dicts, succeeds and leaves every entry with a count of at most 2. *)
Theorem merge_twice_support_le_2 (vs : list feature) :
  Forall (fun v => cnt v = 1%Z) vs ->
  (forall i j vi vj, i <> j -> vs !! i = Some vi -> vs !! j = Some vj ->
     matches vi vj = false) ->
  (forall (σ : store) L, alloc_all ∅ vs = (σ, L) ->
     merge_features σ [] L = Some (σ, L)
     /\ exists σ2 F2,
          merge_features σ L L = Some (σ2, F2)
          /\ forall r, r ∈ F2 -> exists v, σ2 !! r = Some v /\ (cnt v <= 2)%Z)
  /\ (exists σ2 F2,
        merge_models ∅ [] [vs; vs] = Some (σ2, F2)
        /\ forall r, r ∈ F2 -> exists v, σ2 !! r = Some v /\ (cnt v <= 2)%Z).
Proof.
  intros Hcnt Hno. split.
  - intros σ L Ha. destruct (alloc_all_spec _ _ _ _ Ha) as (Hnd & _ & _ & HF).
    split; [by eapply merge_features_first|].
    destruct (merge_features_same_records σ L L vs HF HF Hnd Hcnt Hno)
      as (σ2 & F2 & Hm & _ & Hb). eauto.
  - cbn [merge_models]. destruct (alloc_all ∅ vs) as [σ1 L1] eqn:Ha1.
    destruct (alloc_all_spec _ _ _ _ Ha1) as (Hnd1 & _ & _ & HF1).
    rewrite (merge_features_first σ1 L1 vs Hnd1 HF1 Hno).
    destruct (alloc_all σ1 vs) as [σ2 L2] eqn:Ha2.
    destruct (alloc_all_spec _ _ _ _ Ha2) as (Hnd2 & Hfresh & Hout & HF2).
    assert (HF1' : Forall2 (fun r v => σ2 !! r = Some v) L1 vs).
    { apply (Forall2_store_mono σ1); [|done]. intros r Hr. apply Hout.
      intros Hr2. specialize (Hfresh r Hr2).
      apply list_elem_of_lookup in Hr as [i Hi].
      destruct (Forall2_lookup_l _ _ _ _ _ HF1 Hi) as (v & ? & ?). congruence. }
    destruct (merge_features_same_records σ2 L1 L2 vs HF1' HF2 Hnd1 Hcnt Hno)
      as (σ3 & F3 & Hm & _ & Hb).
    rewrite Hm. eauto.
Qed.

Lemma merge_twice_support_le_2_witness :
  let vs := [new_feature "A" 1 (0, 1); new_feature "A" 2 (1, 2);
             new_feature "B" 3 (0, 0)] in
  exists σ2 F2,
    merge_models ∅ [] [vs; vs] = Some (σ2, F2)
    /\ forall r, r ∈ F2 -> exists v, σ2 !! r = Some v /\ (cnt v <= 2)%Z.
Proof.
  intros vs. apply (merge_twice_support_le_2 vs).
  - repeat constructor.
  - intros [|[|[|i]]] [|[|[|j]]] vi vj Hne Hi Hj; try done;
      cbn in Hi, Hj; injection Hi as <-; injection Hj as <-; reflexivity.
Defined.

(** C10.  The running list is never shortened or reordered by a merge:
    what it held stays in place, so entries that came to overlap are not
    consolidated.  And such entries arise: merging the one-record models
    LogP on (0,1), LogP on (2,3) and LogP on (0.5,2.5) in this order
    leaves two distinct entries named LogP, on (0,2.5) and on (0.5,3),
    each with count 2, and the two intervals overlap. *)
Theorem merge_features_keeps_overlapping_entries :
  (forall S (σ σ' : store) F F',
      merge_features σ F S = Some (σ', F') -> exists extra, F' = F ++ extra)
  /\ (exists (σ' : store) e1 e2 v1 v2,
        merge_models ∅ []
          [[new_feature "LogP" 3 (0, 1)]; [new_feature "LogP" 4 (2, 3)];
           [new_feature "LogP" 5 (1 # 2, 5 # 2)]] = Some (σ', [e1; e2])
        /\ e1 <> e2
        /\ σ' !! e1 = Some v1 /\ σ' !! e2 = Some v2
        /\ name v1 = "LogP"%string /\ name v2 = "LogP"%string
        /\ interval v1 = (0, 5 # 2) /\ interval v2 = (1 # 2, 3)
        /\ cnt v1 = 2%Z /\ cnt v2 = 2%Z
        /\ py_bool (get_overlap (interval v1) (interval v2)) = true).
Proof.
  split; [apply merge_features_prefix|].
  eexists _, _, _, _, _. split; [vm_compute; reflexivity|].
  split; [done|]. split; [vm_compute; reflexivity|].
  split; [vm_compute; reflexivity|]. repeat split.
Qed.

Lemma merge_features_keeps_overlapping_entries_witness :
  exists extra,
    [0%nat; 1%nat] = [0%nat] ++ extra.
Proof.
  apply (proj1 merge_features_keeps_overlapping_entries [1%nat]
           (<[0%nat := new_feature "A" 1 (0, 1)]>
              (<[1%nat := new_feature "B" 1 (0, 1)]> ∅))
           (<[0%nat := new_feature "A" 1 (0, 1)]>
              (<[1%nat := new_feature "B" 1 (0, 1)]> ∅))
           [0%nat] [0%nat; 1%nat]).
  vm_compute. reflexivity.
Defined.


(** ** The report *)

Section sorting.
Context {A : Type} (lt : A -> A -> bool).
Hypothesis lt_asym : forall a b, lt a b = true -> lt b a = false.
Hypothesis lt_negtrans :
  forall a b c, lt a b = false -> lt b c = false -> lt a c = false.

Lemma insert_desc_perm x l : insert_desc lt x l ≡ₚ x :: l.
Proof.
  induction l as [|y l IH]; cbn; [done|].
  destruct (lt x y); [|done]. rewrite IH. apply Permutation_swap.
Qed.

Lemma sorted_desc_perm l : sorted_desc lt l ≡ₚ l.
Proof.
  induction l as [|x l IH]; cbn; [done|].
  rewrite insert_desc_perm. by rewrite IH.
Qed.

Lemma insert_desc_sorted x l :
  StronglySorted (fun a b => lt a b = false) l ->
  StronglySorted (fun a b => lt a b = false) (insert_desc lt x l).
Proof.
  induction 1 as [|y l Hs IH Hy]; cbn.
  - repeat constructor.
  - destruct (lt x y) eqn:E.
    + constructor; [done|]. rewrite insert_desc_perm.
      constructor; [by apply lt_asym|done].
    + constructor; [by constructor|]. constructor; [done|].
      eapply Forall_impl; [exact Hy|]. intros z Hz. by eapply lt_negtrans.
Qed.

Lemma sorted_desc_sorted l :
  StronglySorted (fun a b => lt a b = false) (sorted_desc lt l).
Proof.
  induction l as [|x l IH]; cbn; [constructor|]. by apply insert_desc_sorted.
Qed.
End sorting.

Lemma ratio_lt_asym (a b : feature) :
  Qltb (ratio a) (ratio b) = true -> Qltb (ratio b) (ratio a) = false.
Proof. rewrite Qltb_lt, Qltb_ge. apply Qlt_le_weak. Qed.

Lemma ratio_lt_negtrans (a b c : feature) :
  Qltb (ratio a) (ratio b) = false -> Qltb (ratio b) (ratio c) = false ->
  Qltb (ratio a) (ratio c) = false.
Proof. rewrite !Qltb_ge. intros H1 H2. by eapply Qle_trans. Qed.

(** The records of a list whose count is [k], in the order of the list. *)
Lemma filter_cnt_snoc k (fs : list feature) v :
  filter (fun v => cnt v = k) (fs ++ [v])
  = filter (fun v => cnt v = k) fs ++ (if decide (cnt v = k) then [v] else []).
Proof.
  rewrite filter_app. by f_equal.
Qed.

Lemma add_factor_ok v fs d :
  NoDup d.*1 -> factors_ok d fs ->
  (cnt v ∉ d.*1 -> filter (fun w => cnt w = cnt v) fs = []) ->
  NoDup (add_factor v d).*1
  /\ factors_ok (add_factor v d) (fs ++ [v])
  /\ (forall k, k ∈ (add_factor v d).*1 <-> k ∈ d.*1 \/ k = cnt v).
Proof.
  unfold factors_ok.
  induction d as [|[k vs] d IH]; intros Hnd Hok Hnew; cbn.
  - split; [apply NoDup_singleton|]. split.
    + constructor; [|constructor]. cbn. split; [|done].
      rewrite filter_cnt_snoc, Hnew; [|apply not_elem_of_nil].
      by rewrite decide_True.
    + intros k. rewrite list_elem_of_singleton. split; [by right|].
      intros [H|H]; [by apply elem_of_nil in H|done].
  - cbn in Hnd. apply NoDup_cons in Hnd as [Hk Hnd].
    apply Forall_cons in Hok as [[Hvs Hne] Hok]. cbn in Hvs, Hne.
    destruct (k =? cnt v)%Z eqn:E.
    + apply Z.eqb_eq in E. subst k. cbn. split; [by apply NoDup_cons|]. split.
      * constructor.
        -- cbn. rewrite filter_cnt_snoc, decide_True by done. rewrite <- Hvs.
           split; [done|]. by destruct vs.
        -- rewrite Forall_forall in Hok. apply Forall_forall.
           intros [k' vs'] Hin. destruct (Hok _ Hin) as [H1 H2]. cbn in *.
           split; [|done]. rewrite filter_cnt_snoc, <- H1.
           destruct (decide (cnt v = k')) as [<-|]; [|by rewrite app_nil_r].
           exfalso. apply Hk. apply list_elem_of_fmap. by exists (cnt v, vs').
      * intros k. rewrite !elem_of_cons. tauto.
    + apply Z.eqb_neq in E.
      destruct IH as (IH1 & IH2 & IH3); [done|done| |].
      { intros H. apply Hnew. cbn. rewrite not_elem_of_cons. by split. }
      cbn. split; [|split].
      * apply NoDup_cons. split; [|done]. rewrite IH3. intros [H|H]; [done|].
        by apply E.
      * constructor; [|done]. cbn. split; [|done].
        rewrite filter_cnt_snoc, <- Hvs, decide_False by done. by rewrite app_nil_r.
      * intros k'. rewrite !elem_of_cons, IH3. tauto.
Qed.

Lemma features_factors_ok_gen fs2 : forall d fs1,
  NoDup d.*1 -> factors_ok d fs1 ->
  (forall k, k ∈ d.*1 <-> exists v, v ∈ fs1 /\ cnt v = k) ->
  let d' := fold_left (fun d val => add_factor val d) fs2 d in
  NoDup d'.*1 /\ factors_ok d' (fs1 ++ fs2)
  /\ (forall k, k ∈ d'.*1 <-> exists v, v ∈ fs1 ++ fs2 /\ cnt v = k).
Proof.
  induction fs2 as [|v fs2 IH]; intros d fs1 Hnd Hok Hkeys; cbn.
  - by rewrite app_nil_r.
  - destruct (add_factor_ok v fs1 d Hnd Hok) as (H1 & H2 & H3).
    { intros Hn. destruct (filter _ fs1) as [|w l] eqn:Ef; [done|]. exfalso.
      assert (Hw : w ∈ filter (fun w => cnt w = cnt v) fs1) by (rewrite Ef; left).
      apply list_elem_of_filter in Hw as [E Hw]. apply Hn, Hkeys. eauto. }
    replace (fs1 ++ v :: fs2) with ((fs1 ++ [v]) ++ fs2) by (by rewrite <- app_assoc).
    apply IH; [done|done|].
    intros k. rewrite H3, Hkeys. split.
    + intros [(w & Hw & E)| ->]; [exists w|exists v]; set_solver.
    + intros (w & Hw & E). apply elem_of_app in Hw as [Hw|Hw]; [left; eauto|].
      apply list_elem_of_singleton in Hw as ->. by right.
Qed.

Lemma features_factors_ok fs :
  NoDup (features_factors fs).*1
  /\ factors_ok (features_factors fs) fs
  /\ (forall k, k ∈ (features_factors fs).*1 <-> exists v, v ∈ fs /\ cnt v = k).
Proof.
  apply (features_factors_ok_gen fs [] []); [constructor|constructor|].
  intros k. split; [intros H; by apply elem_of_nil in H|].
  intros (v & H & _). by apply elem_of_nil in H.
Qed.

Lemma StronglySorted_map {A B} (f : A -> B) (R : B -> B -> Prop) l :
  StronglySorted (fun a b => R (f a) (f b)) l -> StronglySorted R (map f l).
Proof.
  induction 1 as [|x l Hs IH Hx]; cbn; constructor; [done|].
  apply Forall_map. done.
Qed.

Lemma StronglySorted_weaken {A} (R R' : A -> A -> Prop) l :
  (forall a b, R a b -> R' a b) -> StronglySorted R l -> StronglySorted R' l.
Proof.
  intros H. induction 1 as [|x l Hs IH Hx]; constructor; [done|].
  eapply Forall_impl; [exact Hx|]. intros y. apply H.
Qed.

Lemma keys_strictly_desc (l : list (Z * list feature)) :
  NoDup l.*1 ->
  StronglySorted (fun a b => (a.1 <? b.1)%Z = false) l ->
  StronglySorted (fun a b => (b.1 < a.1)%Z) l.
Proof.
  intros Hnd Hs. induction Hs as [|x l Hs IH Hx]; constructor.
  - apply IH. cbn in Hnd. by apply NoDup_cons in Hnd as [_ ?].
  - cbn in Hnd. apply NoDup_cons in Hnd as [Hn _].
    rewrite Forall_forall in Hx. apply Forall_forall. intros y Hy.
    specialize (Hx y Hy). apply Z.ltb_ge in Hx.
    assert (y.1 <> x.1); [|lia].
    intros E. apply Hn. rewrite <- E. apply list_elem_of_fmap. by exists y.
Qed.

(** C6.  The report takes the counts present in the merged list as group
    keys, each once, and prints the groups with the keys strictly
    descending; the group of a key holds exactly the entries with that
    count, sorted (stably) by the summed ratio, largest first; and each
    printed line shows the ratio divided by the count. *)
Theorem report_order (features : list feature) :
  StronglySorted (fun g1 g2 => (g2.1 < g1.1)%Z) (report_groups features)
  /\ (forall k, k ∈ (report_groups features).*1 <-> exists v, v ∈ features /\ cnt v = k)
  /\ (forall k vs, (k, vs) ∈ report_groups features ->
        vs = sorted_desc (fun a b => Qltb (ratio a) (ratio b))
               (filter (fun v => cnt v = k) features)
        /\ vs ≡ₚ filter (fun v => cnt v = k) features
        /\ StronglySorted (fun a b => ratio b <= ratio a) vs)
  /\ (Forall (fun v => cnt v <> 0%Z) features ->
        report features
        = Some (concat (map (fun g : Z * list feature =>
                  OutKey g.1
                  :: map (fun v => OutEntry (name v) (interval v).1 (interval v).2
                                     (ratio v / inject_Z (cnt v))) g.2
                  ++ [OutBlank]) (report_groups features)))).
Proof.
  destruct (features_factors_ok features) as (Hnd & Hok & Hkeys).
  set (ltk := fun a b : Z * list feature => (a.1 <? b.1)%Z).
  set (ltr := fun a b : feature => Qltb (ratio a) (ratio b)).
  assert (Hperm : sorted_desc ltk (features_factors features) ≡ₚ features_factors features)
    by apply sorted_desc_perm.
  assert (Hfst : (report_groups features).*1
                 = (sorted_desc ltk (features_factors features)).*1).
  { unfold report_groups. fold ltk ltr. rewrite <- list_fmap_compose. done. }
  split; [|split; [|split]].
  - unfold report_groups. fold ltk ltr.
    apply (StronglySorted_map _ (fun g1 g2 : Z * list feature => (g2.1 < g1.1)%Z)). cbn.
    apply keys_strictly_desc; [by rewrite Hperm|].
    apply sorted_desc_sorted; unfold ltk.
    + intros a b. rewrite Z.ltb_lt, Z.ltb_ge. lia.
    + intros a b c. rewrite !Z.ltb_ge. lia.
  - intros k. rewrite Hfst, Hperm. apply Hkeys.
  - intros k vs Hin. unfold report_groups in Hin. fold ltk ltr in Hin.
    apply list_elem_of_fmap in Hin as ([k' vs0] & E & Hin). cbn in E.
    injection E as -> ->. rewrite Hperm in Hin.
    unfold factors_ok in Hok. rewrite Forall_forall in Hok.
    destruct (Hok _ Hin) as [E _]. cbn in E. cbn. rewrite E. change (foldr (insert_desc ltr) []) with (sorted_desc ltr).
    split; [done|]. split; [apply sorted_desc_perm|].
    eapply StronglySorted_weaken; [|apply (sorted_desc_sorted ltr)].
    + intros a b. unfold ltr. by rewrite Qltb_ge.
    + apply ratio_lt_asym.
    + apply ratio_lt_negtrans.
  - intros Hnz. unfold report.
    assert (forallb (fun v => negb (cnt v =? 0)%Z) features = true) as ->; [|done].
    apply forallb_forall. intros v Hv. rewrite Forall_forall in Hnz.
    apply list_elem_of_In in Hv. apply negb_true_iff, Z.eqb_neq. by apply Hnz.
Qed.

Lemma report_order_witness :
  report [new_feature "a" 3 (0, 1);
          {| name := "c"; ratio := 9; interval := (0, 1); cnt := 2 |};
          new_feature "b" 5 (0, 1)]
  = Some [OutKey 2; OutEntry "c" 0 1 (9 / 2); OutBlank;
          OutKey 1; OutEntry "b" 0 1 (5 / 1); OutEntry "a" 0 1 (3 / 1); OutBlank].
Proof.
  refine (proj2 (proj2 (proj2 (report_order
            [new_feature "a" 3 (0, 1);
             {| name := "c"; ratio := 9; interval := (0, 1); cnt := 2 |};
             new_feature "b" 5 (0, 1)]))) _).
  repeat constructor; discriminate.
Defined.

(** ** Bins *)

Lemma bin_index_Fin (v : Q) (c : Z) :
  bin_index (Fin v) c
  = Ok (if (Qfloor (v * inject_Z c) =? c)%Z then (Qfloor (v * inject_Z c) - 1)%Z
        else Qfloor (v * inject_Z c)).
Proof. reflexivity. Qed.



(** ** Screening *)

Lemma bind_Ok {A B} (r : result A) (f : A -> result B) b :
  r ≫= f = Ok b <-> exists a, r = Ok a /\ f a = Ok b.
Proof.
  destruct r as [a|e]; cbn; split.
  - intros H. by exists a.
  - by intros (a' & [= <-] & H).
  - done.
  - by intros (a' & ? & _).
Qed.

(** The scores grow by one for every fragment not seen before. *)
Lemma score_fragments_grows frags model ff : forall processed scores res,
  score_fragments frags model ff processed scores = Ok res ->
  exists new, res = scores ++ new
    /\ (new = [] <-> forall s, s ∈ frags -> s ∈ processed).
Proof.
  induction frags as [|s frags IH]; intros processed scores res H; cbn in H.
  - injection H as <-. exists []. rewrite app_nil_r. split; [done|].
    split; [|done]. intros _ s Hs. by apply elem_of_nil in Hs.
  - case_bool_decide as Hs.
    + destruct (IH _ _ _ H) as (new & -> & Hnew). exists new. split; [done|].
      rewrite Hnew. split.
      * intros Hall s' Hs'. apply elem_of_cons in Hs' as [->|Hs']; auto.
      * intros Hall s' Hs'. apply Hall. by right.
    + apply bind_Ok in H as (v & _ & H). apply bind_Ok in H as (sc & _ & H).
      destruct (IH _ _ _ H) as (new & -> & _). exists (sc :: new).
      split; [by rewrite <- app_assoc|]. split; [done|].
      intros Hall. exfalso. apply Hs, Hall. left.
Qed.

Lemma screen_mol_spec model ff mol mol' :
  mol_score mol = None ->
  screen_mol model ff mol = Ok mol' ->
  mol_name mol' = mol_name mol
  /\ match mol_score mol' with
     | Some scores => scores <> [] /\ mol_fragments mol <> []
     | None => mol_fragments mol = []
     end.
Proof.
  intros Hnone H. unfold screen_mol in H.
  apply bind_Ok in H as (scores & Hs & H). cbn in H.
  destruct (score_fragments_grows _ _ _ _ _ _ Hs) as (new & -> & Hnew).
  cbn in H. destruct new as [|sc new]; injection H as <-.
  - split; [done|]. rewrite Hnone.
    destruct (mol_fragments mol) as [|s l]; [done|].
    exfalso. apply (elem_of_nil s), Hnew; [done|left].
  - split; [done|]. cbn. split; [done|].
    intros E. rewrite E in Hnew. destruct Hnew as [_ Hnew].
    discriminate Hnew. intros s Hs'. by apply elem_of_nil in Hs'.
Qed.

Lemma screen_mols_scored model ff mols : forall mols',
  Forall (fun m => mol_score m = None) mols ->
  screen_mols model ff mols = Ok mols' ->
  (scored mols').*1 = mol_name <$> filter (fun m => mol_fragments m <> []) mols
  /\ Forall (fun r => r.2 <> []) (scored mols').
Proof.
  induction mols as [|mol mols IH]; intros mols' Hnone H; cbn in H.
  - by injection H as <-.
  - apply Forall_cons in Hnone as [Hn Hnone].
    apply bind_Ok in H as (mol' & Hm & H). apply bind_Ok in H as (rest & Hr & H).
    injection H as <-. destruct (IH _ Hnone Hr) as [IH1 IH2].
    destruct (screen_mol_spec _ _ _ _ Hn Hm) as [Hname Hsc].
    unfold scored in *. rewrite filter_cons.
    destruct (decide (mol_fragments mol <> [])) as [Hd|Hd]; cbn;
      destruct (mol_score mol') as [scores|]; cbn.
    + destruct Hsc as [Hsc Hfr]. split; [by rewrite Hname, IH1|]. by constructor.
    + done.
    + by destruct Hsc as [_ Hfr].
    + done.
Qed.

Lemma score_fragments_total frags model ff : forall processed scores,
  (forall s, s ∈ frags -> exists v sc, ff !! s = Some v
     /\ score_feature_vector v (probabilities model) (cnt_bins model) = Ok sc) ->
  exists res, score_fragments frags model ff processed scores = Ok res.
Proof.
  induction frags as [|s frags IH]; intros processed scores H; cbn; [by eexists|].
  case_bool_decide.
  - apply IH. intros s' Hs'. apply H. by right.
  - destruct (H s) as (v & sc & -> & Hsc); [left|]. cbn. rewrite Hsc. cbn.
    apply IH. intros s' Hs'. apply H. by right.
Qed.

Lemma screen_mols_total model ff mols :
  (forall m s, m ∈ mols -> s ∈ mol_fragments m -> exists v sc, ff !! s = Some v
     /\ score_feature_vector v (probabilities model) (cnt_bins model) = Ok sc) ->
  exists mols', screen_mols model ff mols = Ok mols'.
Proof.
  induction mols as [|mol mols IH]; intros H; cbn; [by eexists|].
  destruct (score_fragments_total (mol_fragments mol) model ff [] []) as [res Hres].
  { intros s Hs. apply (H mol); [left|done]. }
  unfold screen_mol. rewrite Hres. cbn.
  destruct IH as [mols' ->]; [|cbn; by eexists].
  intros m s Hm. apply H. by right.
Qed.



(** ** Table lookups *)

Lemma py_index_nat {A} (l : list A) (i : nat) a :
  l !! i = Some a -> py_index l (Z.of_nat i) = Ok a.
Proof.
  intros H. unfold py_index. pose proof (lookup_lt_Some _ _ _ H) as Hlt.
  destruct (Z.of_nat i <? 0)%Z eqn:E1; [apply Z.ltb_lt in E1; lia|].
  rewrite E1. cbn.
  destruct (Z.of_nat (length l) <=? Z.of_nat i)%Z eqn:E2; [apply Z.leb_le in E2; lia|].
  by rewrite Nat2Z.id, H.
Qed.

Lemma py_index_in_range {A} (l : list A) (i : Z) :
  (- Z.of_nat (length l) <= i < Z.of_nat (length l))%Z ->
  exists a, py_index l i = Ok a /\ a ∈ l.
Proof.
  intros H. unfold py_index.
  set (j := if (i <? 0)%Z then (i + Z.of_nat (length l))%Z else i).
  assert (Hj : (0 <= j < Z.of_nat (length l))%Z).
  { unfold j. destruct (i <? 0)%Z eqn:E; [apply Z.ltb_lt in E|apply Z.ltb_ge in E]; lia. }
  destruct (j <? 0)%Z eqn:E1; [apply Z.ltb_lt in E1; lia|].
  destruct (Z.of_nat (length l) <=? j)%Z eqn:E2; [apply Z.leb_le in E2; lia|]. cbn.
  destruct (lookup_lt_is_Some_2 l (Z.to_nat j)) as [a Ha]; [lia|].
  rewrite Ha. exists a. split; [done|]. by eapply list_elem_of_lookup_2.
Qed.

Lemma py_index_out_of_range {A} (l : list A) (i : Z) :
  (i < - Z.of_nat (length l) \/ Z.of_nat (length l) <= i)%Z ->
  py_index l i = Raise IndexError.
Proof.
  intros H. unfold py_index.
  destruct (i <? 0)%Z eqn:E; [apply Z.ltb_lt in E|apply Z.ltb_ge in E].
  - destruct (i + Z.of_nat (length l) <? 0)%Z eqn:E1; [done|].
    apply Z.ltb_ge in E1. lia.
  - destruct (i <? 0)%Z eqn:E1; [apply Z.ltb_lt in E1; lia|]. cbn.
    destruct (Z.of_nat (length l) <=? i)%Z eqn:E2; [done|]. apply Z.leb_gt in E2. lia.
Qed.

Lemma log_ratio_ok (a b : Q) :
  0 < a -> 0 < b -> (q ← py_div a b; math_log q) = Ok (a / b).
Proof.
  intros Ha Hb. unfold py_div.
  destruct (Qeq_bool b 0) eqn:E.
  { apply Qeq_bool_iff in E. rewrite E in Hb. by apply Qlt_irrefl in Hb. }
  cbn. unfold math_log.
  destruct (Qle_bool (a / b) 0) eqn:E2; [|done].
  apply Qle_bool_iff in E2. exfalso.
  assert (0 < a / b); [|lra].
  apply Qlt_shift_div_l; [done|]. lra.
Qed.

(** The floor of [q * c] stays within [-c, c] exactly for [q] in
    [-1, 1 + 1/c). *)
Lemma floor_within (q : Q) (c : Z) :
  (1 <= c)%Z ->
  (- c <= Qfloor (q * inject_Z c) <= c)%Z
  <-> - (1) <= q /\ q < 1 + 1 / inject_Z c.
Proof.
  intros Hc.
  assert (HC : 1 <= inject_Z c) by (change 1 with (inject_Z 1); by rewrite <- Zle_Qle).
  pose proof (Qfloor_le (q * inject_Z c)) as Hlo.
  pose proof (Qlt_floor (q * inject_Z c)) as Hhi.
  set (F := Qfloor (q * inject_Z c)) in *.
  rewrite inject_Z_plus in Hhi. change (inject_Z 1) with 1 in Hhi.
  assert (Hmul : 1 + 1 / inject_Z c == (inject_Z c + 1) / inject_Z c) by (field; lra).
  split.
  - intros [H1 H2]. rewrite Zle_Qle, inject_Z_opp in H1. rewrite Zle_Qle in H2.
    split.
    + assert (H : - inject_Z c <= q * inject_Z c) by lra.
      apply (Qmult_le_r _ _ (inject_Z c)); lra.
    + rewrite Hmul. apply Qlt_shift_div_l; lra.
  - intros [H1 H2]. rewrite Hmul in H2.
    assert (H2' : q * inject_Z c < inject_Z c + 1).
    { assert (E : (inject_Z c + 1) / inject_Z c * inject_Z c == inject_Z c + 1) by (field; lra).
      rewrite <- E. apply Qmult_lt_r; [lra|done]. }
    split.
    + assert (- inject_Z c <= q * inject_Z c).
      { apply (Qmult_le_r _ _ (inject_Z c)) in H1; lra. }
      assert (inject_Z (- c) < inject_Z (F + 1)).
      { rewrite inject_Z_opp, inject_Z_plus. change (inject_Z 1) with 1. lra. }
      rewrite <- Zlt_Qlt in *. lia.
    + assert (inject_Z F < inject_Z (c + 1)).
      { rewrite inject_Z_plus. change (inject_Z 1) with 1. lra. }
      rewrite <- Zlt_Qlt in *. lia.
Qed.

(** ** Scoring a feature vector *)

Section score_step.
Variables (probs : probabilities_t) (c : Z) (ix : nat) (ra ri : list Q).
Hypothesis Hc : (1 <= c)%Z.
Hypothesis Hra : feature_value_in_actives probs !! ix = Some ra.
Hypothesis Hri : feature_value_in_inactives probs !! ix = Some ri.
Hypothesis Hoka : row_ok c ra.
Hypothesis Hoki : row_ok c ri.

Lemma score_loop_cons_ok q rest score :
  (- c <= Qfloor (q * inject_Z c) <= c)%Z ->
  exists t, score_loop (Fin q :: rest) probs c ix score
            = score_loop rest probs c (S ix) (score ++ [t]).
Proof.
  intros Hq. cbn [score_loop]. rewrite bin_index_Fin.
  set (fv := if (Qfloor (q * inject_Z c) =? c)%Z
             then (Qfloor (q * inject_Z c) - 1)%Z else Qfloor (q * inject_Z c)).
  assert (Hfv : (- c <= fv < c)%Z).
  { unfold fv. destruct (Qfloor (q * inject_Z c) =? c)%Z eqn:E;
      [apply Z.eqb_eq in E|apply Z.eqb_neq in E]; lia. }
  destruct Hoka as [Hla Hpa], Hoki as [Hli Hpi].
  destruct (py_index_in_range ra fv) as (a & Ha & Hina); [lia|].
  destruct (py_index_in_range ri fv) as (i & Hi & Hini); [lia|].
  rewrite Forall_forall in Hpa, Hpi.
  exists (a / i). cbn.
  rewrite (py_index_nat _ _ _ Hra). cbn. rewrite Ha. cbn.
  rewrite (py_index_nat _ _ _ Hri). cbn. rewrite Hi. cbn.
  pose proof (log_ratio_ok a i (Hpa a Hina) (Hpi i Hini)) as Hlog.
  destruct (py_div a i) as [q'|] eqn:Ed; [|done]. cbn in Hlog |- *.
  by rewrite Hlog.
Qed.

Lemma score_loop_cons_err q rest score :
  ~ (- c <= Qfloor (q * inject_Z c) <= c)%Z ->
  score_loop (Fin q :: rest) probs c ix score = Raise IndexError.
Proof.
  intros Hq. cbn [score_loop]. rewrite bin_index_Fin.
  set (fv := if (Qfloor (q * inject_Z c) =? c)%Z
             then (Qfloor (q * inject_Z c) - 1)%Z else Qfloor (q * inject_Z c)).
  assert (Hfv : (fv < - c \/ c <= fv)%Z).
  { unfold fv. destruct (Qfloor (q * inject_Z c) =? c)%Z eqn:E;
      [apply Z.eqb_eq in E|apply Z.eqb_neq in E]; lia. }
  destruct Hoka as [Hla Hpa]. cbn.
  rewrite (py_index_nat _ _ _ Hra). cbn.
  rewrite (py_index_out_of_range ra fv) by lia. done.
Qed.
End score_step.

Lemma tables_ok_rows probs c n j :
  tables_ok probs c n -> (j < n)%nat ->
  exists ra ri,
    feature_value_in_actives probs !! j = Some ra
    /\ feature_value_in_inactives probs !! j = Some ri
    /\ row_ok c ra /\ row_ok c ri.
Proof.
  intros (Hla & Hli & Hfa & Hfi & _) Hj.
  destruct (lookup_lt_is_Some_2 (feature_value_in_actives probs) j) as [ra Hra]; [lia|].
  destruct (lookup_lt_is_Some_2 (feature_value_in_inactives probs) j) as [ri Hri]; [lia|].
  exists ra, ri. do 2 (split; [done|]). rewrite Forall_forall in Hfa, Hfi.
  split; [apply Hfa|apply Hfi]; by eapply list_elem_of_lookup_2.
Qed.

Lemma score_loop_total probs c n (Hc : (1 <= c)%Z) (Hok : tables_ok probs c n) v :
  forall ix score,
    (ix + length v <= n)%nat ->
    Forall (fun q => (- c <= Qfloor (q * inject_Z c) <= c)%Z) v ->
    exists s, score_loop (Fin <$> v) probs c ix score = Ok s
              /\ length s = (length score + length v)%nat.
Proof.
  induction v as [|q v IH]; intros ix score Hn Hall; cbn [fmap list_fmap].
  - exists score. split; [done|]. cbn. lia.
  - apply Forall_cons in Hall as [Hq Hall]. cbn in Hn.
    destruct (tables_ok_rows probs c n ix Hok) as (ra & ri & Hra & Hri & Hoka & Hoki); [lia|].
    destruct (score_loop_cons_ok probs c ix ra ri Hc Hra Hri Hoka Hoki q (Fin <$> v) score Hq)
      as [t ->].
    destruct (IH (S ix) (score ++ [t])) as (s & Hs & Hlen); [lia|done|].
    exists s. split; [done|]. rewrite Hlen, length_app. cbn. lia.
Qed.

Lemma score_loop_index_error probs c n (Hc : (1 <= c)%Z) (Hok : tables_ok probs c n) v :
  forall ix score,
    (ix + length v <= n)%nat ->
    Exists (fun q => ~ (- c <= Qfloor (q * inject_Z c) <= c)%Z) v ->
    score_loop (Fin <$> v) probs c ix score = Raise IndexError.
Proof.
  induction v as [|q v IH]; intros ix score Hn Hex; cbn [fmap list_fmap].
  - by apply Exists_nil in Hex.
  - cbn in Hn.
    destruct (tables_ok_rows probs c n ix Hok) as (ra & ri & Hra & Hri & Hoka & Hoki); [lia|].
    destruct (decide (- c <= Qfloor (q * inject_Z c) <= c)%Z) as [Hq|Hq].
    + destruct (score_loop_cons_ok probs c ix ra ri Hc Hra Hri Hoka Hoki q (Fin <$> v) score Hq)
        as [t ->].
      apply IH; [lia|]. apply Exists_cons in Hex as [Hex|Hex]; [done|done].
    + by apply (score_loop_cons_err probs c ix ra).
Qed.




(** ** Reading the table *)

Lemma header_ixs_elem fn row : forall s i,
  i ∈ header_ixs fn s row
  <-> (s <= i)%nat /\ exists c, row !! (i - s)%nat = Some c /\ c ∈ fn.
Proof.
  induction row as [|c row IH]; intros s i; cbn.
  - split; [intros H; by apply elem_of_nil in H|]. by intros (_ & c & ? & _).
  - assert (Hrest : i ∈ header_ixs fn (S s) row
              <-> (s < i)%nat /\ exists c', (c :: row) !! (i - s)%nat = Some c' /\ c' ∈ fn).
    { rewrite IH. split.
      - intros (Hle & c' & Hc' & Hin). split; [lia|]. exists c'. split; [|done].
        replace (i - s)%nat with (S (i - S s)) by lia. done.
      - intros (Hlt & c' & Hc' & Hin). split; [lia|]. exists c'. split; [|done].
        replace (i - s)%nat with (S (i - S s)) in Hc' by lia. done. }
    case_bool_decide as Hc.
    + rewrite elem_of_cons, Hrest. split.
      * intros [->|(Hlt & H)]; [|split; [lia|done]].
        split; [lia|]. exists c. by rewrite Nat.sub_diag.
      * intros (Hle & c' & Hc' & Hin).
        destruct (decide (i = s)) as [->|Hne]; [by left|right].
        split; [lia|]. eauto.
    + rewrite Hrest. split.
      * intros (Hlt & H). split; [lia|done].
      * intros (Hle & c' & Hc' & Hin). split; [|eauto].
        destruct (decide (i = s)) as [->|Hne]; [|lia].
        rewrite Nat.sub_diag in Hc'. cbn in Hc'. by injection Hc' as <-.
Qed.

Lemma append_cells_spec {P : Type} (pos : P -> nat) (f : P -> list string) row :
  forall params : list P,
    Forall (fun p => (pos p < length row)%nat) params ->
    append_cells row (pos <$> params) (f <$> params)
    = Ok ((fun p => f p ++ [cell (pos p) row]) <$> params).
Proof.
  induction params as [|p params IH]; intros Hall; cbn; [done|].
  apply Forall_cons in Hall as [Hp Hall].
  destruct (lookup_lt_is_Some_2 row (pos p) Hp) as [c Hc].
  rewrite Hc, (IH Hall). cbn. unfold cell. by rewrite Hc.
Qed.

(** Rows before the header: empty, or without any feature name. *)
Lemma read_rows_before_header fn pre rest :
  Forall (fun r => header_ixs fn 0 r = []) pre ->
  read_rows fn (pre ++ rest) ([], [], []) = read_rows fn rest ([], [], []).
Proof.
  induction pre as [|r pre IH]; intros H; [done|].
  apply Forall_cons in H as [Hr H]. cbn [app read_rows].
  assert (read_row fn ([], [], []) r = Ok ([], [], [])) as ->.
  { destruct r as [|c r]; [done|]. cbn [read_row]. by rewrite Hr. }
  cbn. by apply IH.
Qed.

(** Data rows: every non-empty row adds its first cell to the fragments and
    one cell to each column. *)
Lemma read_rows_data {P : Type} (pos : P -> nat) fn (params : list P) data :
  params <> [] ->
  Forall (fun r => r = [] \/ Forall (fun p => (pos p < length r)%nat) params) data ->
  forall seen : list (list string),
    read_rows fn data
      (pos <$> params, (fun p => cell (pos p) <$> seen) <$> params, cell 0 <$> seen)
    = Ok (pos <$> params,
          (fun p => cell (pos p) <$> (seen ++ filter (fun r => r <> []) data)) <$> params,
          cell 0 <$> (seen ++ filter (fun r => r <> []) data)).
Proof.
  intros Hne. induction data as [|r data IH]; intros Hall seen.
  - cbn. by rewrite app_nil_r.
  - apply Forall_cons in Hall as [Hr Hall]. cbn [read_rows].
    rewrite filter_cons. destruct r as [|c r].
    + cbn [read_row]. cbn. rewrite decide_False by (by intros ?). by apply IH.
    + destruct Hr as [Hr|Hr]; [done|].
      rewrite decide_True by done.
      cbn [read_row]. destruct params as [|p0 params0] eqn:Ep; [done|].
      rewrite <- Ep in *. assert (pos <$> params = pos p0 :: (pos <$> params0)) as Epos by (by rewrite Ep).
      rewrite Epos at 1.
      rewrite (append_cells_spec pos (fun p => cell (pos p) <$> seen) (c :: r) params Hr).
      cbn. specialize (IH Hall (seen ++ [c :: r])).
      rewrite <- !app_assoc in IH. cbn in IH. rewrite <- IH.
      f_equal. f_equal; [f_equal|].
      * apply list_fmap_ext. intros _ p _. by rewrite fmap_app.
      * by rewrite fmap_app.
Qed.

(** ** The matrix steps *)

Lemma mapM_impute imp ix v (col : list fl) :
  imp !! ix = Some v ->
  mapM (impute imp ix) col = Ok ((fun x => if is_nan x then Fin v else x) <$> col).
Proof.
  intros H. induction col as [|x col IH]; cbn; [done|].
  rewrite IH. unfold impute. rewrite H. by destruct (is_nan x).
Qed.

Lemma impute_columns_spec {P D : Type} (val : P -> Q) (f : P -> D -> fl) (data : list D) :
  forall (params before : list P),
    impute_columns (val <$> (before ++ params)) (length before)
      ((fun p => f p <$> data) <$> params)
    = Ok ((fun p => (fun r => if is_nan (f p r) then Fin (val p) else f p r) <$> data)
            <$> params).
Proof.
  induction params as [|p params IH]; intros before; cbn; [done|].
  rewrite (mapM_impute _ _ (val p)).
  2:{ rewrite list_lookup_fmap, lookup_app_r by lia. by rewrite Nat.sub_diag. }
  cbn. specialize (IH (before ++ [p])). rewrite <- app_assoc, length_app in IH.
  cbn in IH. rewrite Nat.add_1_r in IH. rewrite IH. cbn.
  by rewrite <- list_fmap_compose.
Qed.

Lemma clip_loop_spec {P D : Type} (lo hi : P -> Q) (f : P -> D -> fl) (data : list D) :
  forall (params before : list P) (fm0 : list (list fl)) printed,
    length before = length fm0 ->
    clip_loop (lo <$> params) (length fm0) (hi <$> (before ++ params))
      (fm0 ++ ((fun p => f p <$> data) <$> params)) printed
    = Ok (fm0 ++ ((fun p => (fun r => fl_clip (lo p) (hi p) (f p r)) <$> data)
                    <$> params),
          printed
          ++ concat (imap (fun j p =>
                             clip_report (length fm0 + j) (lo p) (hi p)
                               ((fun r => fl_clip (lo p) (hi p) (f p r)) <$> data))
                          params)).
Proof.
  induction params as [|p params IH]; intros before fm0 printed Hlen; cbn.
  - by rewrite !app_nil_r.
  - rewrite lookup_app_r by lia. rewrite Nat.sub_diag. cbn.
    rewrite list_lookup_fmap, lookup_app_r by lia. rewrite Hlen, Nat.sub_diag. cbn.
    rewrite insert_app_r_alt by lia. rewrite Nat.sub_diag. cbn.
    set (col' := fl_clip (lo p) (hi p) <$> (f p <$> data)).
    pose proof (IH (before ++ [p]) (fm0 ++ [col'])
                  (printed ++ clip_report (length fm0) (lo p) (hi p) col')) as Hp.
    specialize (Hp ltac:(rewrite !length_app; cbn; lia)).
    rewrite <- !app_assoc, length_app in Hp. cbn in Hp.
    rewrite Nat.add_1_r in Hp. rewrite Hp.
    unfold col'. rewrite <- list_fmap_compose, Nat.add_0_r. f_equal. f_equal.
    f_equal. f_equal. f_equal.
    apply imap_ext. intros j q _. cbn. f_equal. lia.
Qed.

Lemma transpose_spec {P D : Type} (g : P -> D -> fl) (params : list P) (data : list D) :
  params <> [] ->
  transpose ((fun p => g p <$> data) <$> params)
  = (fun r => (fun p => g p r) <$> params) <$> data.
Proof.
  intros Hne. unfold transpose.
  assert (Hn : match (fun p => g p <$> data) <$> params with
               | col :: _ => length col
               | [] => 0%nat
               end = length data).
  { destruct params; [done|]. cbn. by rewrite length_fmap. }
  rewrite Hn.
  apply list_eq. intros t. rewrite !list_lookup_fmap.
  destruct (data !! t) as [r|] eqn:Er.
  - rewrite lookup_seq_lt by (by eapply lookup_lt_Some). cbn. f_equal.
    rewrite <- list_fmap_compose. apply list_fmap_ext. intros _ p _. cbn.
    by rewrite list_lookup_fmap, Er.
  - rewrite lookup_seq_ge by (by apply lookup_ge_None). done.
Qed.

Lemma zip_with_fmap_same {P A B C : Type} (h : A -> B -> C) (a : P -> A) (b : P -> B)
    (params : list P) :
  zip_with h (a <$> params) (b <$> params) = (fun p => h (a p) (b p)) <$> params.
Proof. induction params as [|p params IH]; cbn; [done|]. by rewrite IH. Qed.

Lemma stretch_same {A} (l : list A) : stretch (length l) l = l.
Proof. unfold stretch. by rewrite Nat.eqb_refl. Qed.

Lemma scale_rows_spec {D : Type} (lo hi : (nat * Q * Q * Q) -> Q)
    (g : (nat * Q * Q * Q) -> D -> fl) (params : list (nat * Q * Q * Q)) (data : list D) :
  scale_rows (length params) ((fun r => (fun p => g p r) <$> params) <$> data)
    (lo <$> params) (hi <$> params)
  = Ok ((fun r => (fun p => fl_div (fl_sub (g p r) (Fin (lo p))) (Fin (hi p - lo p)))
                    <$> params) <$> data).
Proof.
  unfold scale_rows. rewrite !length_fmap. unfold bwidth. rewrite !Nat.eqb_refl. cbn.
  rewrite Nat.eqb_refl. cbn. f_equal. rewrite <- list_fmap_compose.
  apply list_fmap_ext. intros _ r _. cbn.
  assert (Hs : forall {A} (l : list A), length l = length params ->
                 stretch (length params) l = l).
  { intros A l <-. apply stretch_same. }
  rewrite (Hs _ (hi <$> params)), (Hs _ (lo <$> params)),
    (Hs _ ((fun p => g p r) <$> params)), (Hs _ (Fin <$> (lo <$> params)))
    by (by rewrite !length_fmap).
  rewrite <- list_fmap_compose, !zip_with_fmap_same.
  rewrite !Hs by (by rewrite !length_fmap).
  by rewrite zip_with_fmap_same.
Qed.

Lemma fill_dict_spec {D : Type} (nm : D -> string) (h : D -> list fl) :
  forall (data before : list D) d,
    fill_dict (nm <$> data) (length before) (h <$> (before ++ data)) d
    = Ok (fold_left (fun d r => <[nm r := h r]> d) data d).
Proof.
  induction data as [|r data IH]; intros before d; cbn; [done|].
  rewrite list_lookup_fmap, lookup_app_r by lia. rewrite Nat.sub_diag. cbn.
  specialize (IH (before ++ [r]) (<[nm r := h r]> d)).
  rewrite <- app_assoc, length_app in IH. cbn in IH. rewrite Nat.add_1_r in IH.
  done.
Qed.

Lemma column_params_proj ixs norm :
  length (imputation_values norm) = length ixs ->
  length (mins norm) = length ixs ->
  length (maxs norm) = length ixs ->
  let P := column_params ixs norm in
  ixs = (fun p => p.1.1.1) <$> P
  /\ imputation_values norm = (fun p => p.1.1.2) <$> P
  /\ mins norm = (fun p => p.1.2) <$> P
  /\ maxs norm = (fun p => p.2) <$> P.
Proof.
  intros H1 H2 H3 P. unfold P, column_params.
  set (z1 := zip ixs (imputation_values norm)).
  set (z2 := zip z1 (mins norm)).
  assert (L1 : length z1 = length ixs) by (unfold z1; rewrite length_zip; lia).
  assert (L2 : length z2 = length ixs) by (unfold z2; rewrite length_zip; lia).
  assert (E3 : z2 = fst <$> zip z2 (maxs norm)) by (rewrite fst_zip; [done|lia]).
  assert (E2 : z1 = fst <$> z2) by (unfold z2; rewrite fst_zip; [done|lia]).
  assert (E1 : ixs = fst <$> z1) by (unfold z1; rewrite fst_zip; [done|lia]).
  split; [|split; [|split]].
  - rewrite E1 at 1. rewrite E2 at 1. rewrite E3 at 1.
    rewrite <- !list_fmap_compose. done.
  - assert (E : imputation_values norm = snd <$> z1) by (unfold z1; rewrite snd_zip; [done|lia]).
    rewrite E at 1. rewrite E2 at 1. rewrite E3 at 1.
    rewrite <- !list_fmap_compose. done.
  - assert (E : mins norm = snd <$> z2) by (unfold z2; rewrite snd_zip; [done|lia]).
    rewrite E at 1. rewrite E3 at 1. rewrite <- !list_fmap_compose. done.
  - rewrite snd_zip; [done|lia].
Qed.

(** The function on a well-formed table: rows without a feature name, the
    header, then data rows that reach every selected column; and as many
    imputation values, minima and maxima as selected columns. *)
Lemma get_normalized_features_rows_printed to_float model pre hdr data :
  let fn := features_names model in
  let norm := normalization model in
  let ixs := header_ixs fn 0 hdr in
  Forall (fun r => header_ixs fn 0 r = []) pre ->
  ixs <> [] ->
  length (imputation_values norm) = length ixs ->
  length (mins norm) = length ixs ->
  length (maxs norm) = length ixs ->
  Forall (fun r => r = [] \/ Forall (fun i => (i < length r)%nat) ixs) data ->
  get_normalized_features to_float (pre ++ hdr :: data) model
  = Ok (normalized_table to_float (column_params ixs norm) data,
        printed_pairs to_float (column_params ixs norm) data).
Proof.
  intros fn norm ixs Hpre Hne Hl1 Hl2 Hl3 Hdata.
  destruct (column_params_proj ixs norm Hl1 Hl2 Hl3) as (Ei & Ev & Elo & Ehi).
  set (P := column_params ixs norm) in *.
  assert (HP : P <> []).
  { intros E. apply Hne. rewrite Ei, E. done. }
  unfold get_normalized_features. fold fn norm.
  rewrite (read_rows_before_header fn pre (hdr :: data) Hpre).
  cbn [read_rows].
  assert (Hhdr : read_row fn ([], [], []) hdr
                 = Ok ((fun p => p.1.1.1) <$> P,
                       (fun p => cell p.1.1.1 <$> []) <$> P, cell 0 <$> [])).
  { assert (Hgen : forall (l : list nat) (Q0 : list (nat * Q * Q * Q)),
              l = (fun p => p.1.1.1) <$> Q0 ->
              (l, (fun _ : nat => @nil string) <$> l, @nil string)
              = ((fun p => p.1.1.1) <$> Q0,
                 (fun p => cell p.1.1.1 <$> []) <$> Q0, cell 0 <$> [])).
    { intros l Q0 ->. by rewrite <- list_fmap_compose. }
    destruct hdr as [|c hdr]; [done|]. cbn [read_row]. fold ixs.
    by rewrite (Hgen ixs P Ei). }
  rewrite Hhdr. cbn [mbind result_bind].
  rewrite (read_rows_data (fun p : nat * Q * Q * Q => p.1.1.1) fn P data HP).
  2:{ eapply Forall_impl; [exact Hdata|]. intros r [->|Hr]; [by left|right].
      rewrite Ei in Hr. by apply Forall_fmap in Hr. }
  cbn [mbind result_bind fst snd app].
  set (D := filter (fun r => r <> []) data).
  assert (Econv : (fun x : list string => to_float <$> x)
                    <$> ((fun p : nat * Q * Q * Q => cell p.1.1.1 <$> D) <$> P)
                  = (fun p : nat * Q * Q * Q =>
                       (fun r => to_float (cell p.1.1.1 r)) <$> D) <$> P).
  { rewrite <- list_fmap_compose. apply list_fmap_ext. intros _ p _. cbn.
    by rewrite <- list_fmap_compose. }
  rewrite Econv.
  rewrite Ev.
  pose proof (impute_columns_spec (fun p : nat * Q * Q * Q => p.1.1.2)
                (fun p r => to_float (cell p.1.1.1 r)) D P []) as Himp.
  cbn [app length] in Himp. rewrite Himp. cbn [mbind result_bind].
  rewrite Elo, Ehi.
  pose proof (clip_loop_spec (fun p : nat * Q * Q * Q => p.1.2) (fun p => p.2)
                (fun p r => if is_nan (to_float (cell p.1.1.1 r)) then Fin p.1.1.2
                            else to_float (cell p.1.1.1 r)) D P [] [] [] eq_refl)
    as Hclip.
  cbn [app length] in Hclip. rewrite Hclip. cbn [mbind result_bind fst snd].
  rewrite transpose_spec by done. rewrite length_fmap.
  rewrite scale_rows_spec. cbn [mbind result_bind].
  pose proof (fill_dict_spec (cell 0)
    (fun r => (fun p : nat * Q * Q * Q =>
       fl_div (fl_sub (fl_clip p.1.2 p.2
                 (if is_nan (to_float (cell p.1.1.1 r)) then Fin p.1.1.2
                  else to_float (cell p.1.1.1 r))) (Fin p.1.2)) (Fin (p.2 - p.1.2)))
       <$> P) D [] ∅) as Hfill.
  cbn [app length] in Hfill. rewrite Hfill. done.
Qed.

Lemma get_normalized_features_rows to_float model pre hdr data :
  let fn := features_names model in
  let norm := normalization model in
  let ixs := header_ixs fn 0 hdr in
  Forall (fun r => header_ixs fn 0 r = []) pre ->
  ixs <> [] ->
  length (imputation_values norm) = length ixs ->
  length (mins norm) = length ixs ->
  length (maxs norm) = length ixs ->
  Forall (fun r => r = [] \/ Forall (fun i => (i < length r)%nat) ixs) data ->
  exists printed,
    get_normalized_features to_float (pre ++ hdr :: data) model
    = Ok (normalized_table to_float (column_params ixs norm) data, printed).
Proof.
  intros fn norm ixs Hpre Hne Hl1 Hl2 Hl3 Hdata. eexists.
  by apply get_normalized_features_rows_printed.
Qed.

(** ** Values *)

Lemma fl_clip_range lo hi x :
  lo <= hi -> is_nan x = false ->
  exists c, fl_clip lo hi x = Fin c /\ lo <= c /\ c <= hi.
Proof.
  intros Hle Hx. unfold fl_clip. rewrite Hx.
  destruct x as [q| | |]; [| | |done]; cbn.
  - destruct (Qltb q lo) eqn:E1; cbn.
    + destruct (Qltb hi lo) eqn:E2.
      * apply Qltb_lt in E2. lra.
      * exists lo. split; [done|]. lra.
    + apply Qltb_ge in E1. destruct (Qltb hi q) eqn:E2.
      * exists hi. split; [done|]. lra.
      * apply Qltb_ge in E2. exists q. split; [done|]. lra.
  - exists hi. split; [done|]. lra.
  - destruct (Qltb hi lo) eqn:E2.
    + apply Qltb_lt in E2. lra.
    + exists lo. split; [done|]. lra.
Qed.

Lemma imputed_not_nan v x : is_nan (if is_nan x then Fin v else x) = false.
Proof. by destruct x. Qed.

(** A column whose minimum equals its maximum: every value becomes NaN. *)
Lemma normalize_value_degenerate v lo hi x :
  lo == hi -> normalize_value v lo hi x = NaN.
Proof.
  intros E. unfold normalize_value.
  destruct (fl_clip_range lo hi (if is_nan x then Fin v else x)) as (c & -> & H1 & H2);
    [lra|apply imputed_not_nan|].
  change (fl_sub (Fin c) (Fin lo)) with (Fin (c - lo)). unfold fl_div.
  assert (Qeq_bool (hi - lo) 0 = true) as -> by (apply Qeq_bool_iff; lra).
  assert (Hc : c - lo == 0) by lra.
  assert (Qnum (c - lo) = 0%Z) as ->; [|done].
  unfold Qeq in Hc. cbn in Hc |- *. lia.
Qed.

(** A column with minimum below maximum: every value lands in [0, 1]. *)
Lemma normalize_value_unit v lo hi x :
  lo < hi ->
  exists q, normalize_value v lo hi x = Fin q /\ 0 <= q /\ q <= 1.
Proof.
  intros Hlt. unfold normalize_value.
  destruct (fl_clip_range lo hi (if is_nan x then Fin v else x)) as (c & -> & H1 & H2);
    [lra|apply imputed_not_nan|].
  change (fl_sub (Fin c) (Fin lo)) with (Fin (c - lo)). unfold fl_div.
  assert (Qeq_bool (hi - lo) 0 = false) as ->.
  { apply not_true_iff_false. intros E. apply Qeq_bool_iff in E. lra. }
  exists ((c - lo) / (hi - lo)). split; [done|]. split.
  - apply Qle_shift_div_l; lra.
  - apply Qle_shift_div_r; lra.
Qed.

Lemma normalized_table_lookup to_float P data frag row :
  normalized_table to_float P data !! frag = Some row ->
  exists r, r ∈ data /\ r <> [] /\ cell 0 r = frag /\ row = normalize_row to_float P r.
Proof.
  unfold normalized_table.
  assert (Hgen : forall (D : list (list string)) (d : gmap string (list fl)),
            fold_left (fun d r => <[cell 0 r := normalize_row to_float P r]> d) D d
              !! frag = Some row ->
            d !! frag = Some row
            \/ exists r, r ∈ D /\ cell 0 r = frag /\ row = normalize_row to_float P r).
  { induction D as [|r D IH]; intros d H; cbn in H; [by left|].
    destruct (IH _ H) as [Hd|(r' & Hr' & ? & ?)].
    - destruct (decide (cell 0 r = frag)) as [E|E].
      + rewrite E, lookup_insert_eq in Hd. injection Hd as <-.
        right. exists r. split; [left|done].
      + rewrite lookup_insert_ne in Hd by done. by left.
    - right. exists r'. split; [by right|done]. }
  intros H. destruct (Hgen _ _ H) as [Hd|(r & Hr & ? & ?)].
  - by rewrite lookup_empty in Hd.
  - apply list_elem_of_filter in Hr as [? ?]. by exists r.
Qed.

Lemma normalized_table_dom to_float P data r :
  r ∈ data -> r <> [] -> is_Some (normalized_table to_float P data !! cell 0 r).
Proof.
  intros Hr Hne. unfold normalized_table.
  assert (Hin : r ∈ filter (fun r => r <> []) data) by (by apply list_elem_of_filter).
  revert Hin. generalize (filter (fun r => r <> []) data).
  generalize (∅ : gmap string (list fl)).
  assert (Hkeep : forall (D : list (list string)) (d : gmap string (list fl)),
            is_Some (d !! cell 0 r) ->
            is_Some (fold_left (fun d r => <[cell 0 r := normalize_row to_float P r]> d) D d
                       !! cell 0 r)).
  { induction D as [|r' D IH]; intros d Hd; cbn; [done|]. apply IH.
    destruct (decide (cell 0 r' = cell 0 r)) as [->|E].
    - rewrite lookup_insert_eq. by eexists.
    - by rewrite lookup_insert_ne. }
  intros d D. revert d. induction D as [|r' D IH]; intros d Hin; cbn.
  - by apply elem_of_nil in Hin.
  - apply elem_of_cons in Hin as [<-|Hin]; [|by apply IH].
    apply Hkeep. rewrite lookup_insert_eq. by eexists.
Qed.

(** C3, counterexample.  Feature names A, B with ranges [0,10] and
    [0,100]; the table has the columns in the order B, A and one row with
    B = 50, A = 5.  The function applies the range of A to the column
    named B and the range of B to the column named A: the row becomes
    (10/10, 5/100), where selection by name gives (5/10, 50/100). *)
Lemma get_normalized_features_order_counterexample :
  let model :=
    {| features_names := ["A"; "B"]; cnt_bins := 2;
       probabilities :=
         {| feature_value_in_actives := [[1 # 2; 1 # 2]; [1 # 2; 1 # 2]];
            feature_value_in_inactives := [[1 # 2; 1 # 2]; [1 # 2; 1 # 2]];
            active := 1 # 2; inactive := 1 # 2 |};
       normalization :=
         {| imputation_values := [5; 7]; mins := [0; 0]; maxs := [10; 100] |} |} in
  let header := ["Name"; "B"; "A"] in
  let row := ["f"; "50"; "5"] in
  (exists d,
      get_normalized_features to_float_digits [header; row] model = Ok (d, [])
      /\ d !! "f"%string = Some [Fin ((10 - 0) / (10 - 0)); Fin ((5 - 0) / (100 - 0))])
  /\ normalize_row to_float_digits
       (by_name_params (features_names model) header (normalization model)) row
     = [Fin ((5 - 0) / (10 - 0)); Fin ((50 - 0) / (100 - 0))]
  /\ ~ (10 - 0) / (10 - 0) == (5 - 0) / (10 - 0).
Proof.
  split; [|split].
  - eexists. split; [vm_compute; reflexivity|]. vm_compute. reflexivity.
  - vm_compute. reflexivity.
  - discriminate.
Qed.




(** ** Selection by name *)

Lemma index_of_spec x l :
  x ∈ l ->
  l !! index_of x l = Some x
  /\ forall i, (i < index_of x l)%nat -> l !! i <> Some x.
Proof.
  induction l as [|y l IH]; intros Hin; [by apply elem_of_nil in Hin|].
  cbn. destruct (decide (x = y)) as [->|Hne].
  - split; [done|]. intros i Hi. lia.
  - apply elem_of_cons in Hin as [->|Hin]; [done|].
    destruct (IH Hin) as [H1 H2]. split; [done|].
    intros [|i] Hi; cbn; [congruence|]. apply H2. lia.
Qed.

Lemma NoDup_fmap_inj_on {A B} (f : A -> B) (l : list A) x y :
  NoDup (f <$> l) -> x ∈ l -> y ∈ l -> f x = f y -> x = y.
Proof.
  induction l as [|a l IH]; intros Hnd Hx Hy E; [by apply elem_of_nil in Hx|].
  cbn in Hnd. apply NoDup_cons in Hnd as [Ha Hnd].
  apply elem_of_cons in Hx as [->|Hx], Hy as [->|Hy]; [done| | |by apply IH].
  - exfalso. apply Ha. rewrite E. by apply list_elem_of_fmap_2.
  - exfalso. apply Ha. rewrite <- E. by apply list_elem_of_fmap_2.
Qed.

(** When the selected header cells spell the feature names in order, and
    no name occurs twice, every selected column is the first column
    bearing its name. *)
Lemma header_ixs_by_name fn hdr :
  NoDup fn ->
  (fun i => cell i hdr) <$> header_ixs fn 0 hdr = fn ->
  header_ixs fn 0 hdr = (fun n => index_of n hdr) <$> fn.
Proof.
  intros Hnd Hnames. rewrite <- Hnames at 2. rewrite <- list_fmap_compose.
  rewrite <- (list_fmap_id (header_ixs fn 0 hdr)) at 1.
  apply list_fmap_ext. intros k i Hi. cbn.
  apply list_elem_of_lookup_2 in Hi.
  pose proof Hi as Hi'. apply header_ixs_elem in Hi' as (_ & c & Hc & Hcfn).
  rewrite Nat.sub_0_r in Hc.
  assert (Ecell : cell i hdr = c) by (unfold cell; by rewrite Hc).
  rewrite Ecell.
  destruct (index_of_spec c hdr) as [Hfirst _]; [by eapply list_elem_of_lookup_2|].
  assert (Hin' : index_of c hdr ∈ header_ixs fn 0 hdr).
  { apply header_ixs_elem. split; [lia|]. exists c. by rewrite Nat.sub_0_r. }
  rewrite <- Hnames in Hnd.
  apply (NoDup_fmap_inj_on (fun i => cell i hdr) _ _ _ Hnd Hi Hin').
  rewrite Ecell. unfold cell. by rewrite Hfirst.
Qed.

(** C3, amended.  [get_normalized_features] takes the selected columns in
    the order they appear in the table: on a well-formed table, column
    number [j] among the columns whose header cell is a feature name gets
    imputation value, minimum and maximum number [j].  This is selection by
    name when the selected header cells spell the feature names in the
    model's order and no feature name occurs twice. *)
Theorem get_normalized_features_table_order to_float model pre hdr data :
  let fn := features_names model in
  let norm := normalization model in
  let ixs := header_ixs fn 0 hdr in
  Forall (fun r => header_ixs fn 0 r = []) pre ->
  ixs <> [] ->
  length (imputation_values norm) = length ixs ->
  length (mins norm) = length ixs ->
  length (maxs norm) = length ixs ->
  Forall (fun r => r = [] \/ Forall (fun i => (i < length r)%nat) ixs) data ->
  (exists printed,
     get_normalized_features to_float (pre ++ hdr :: data) model
     = Ok (normalized_table to_float (column_params ixs norm) data, printed))
  /\ (NoDup fn -> (fun i => cell i hdr) <$> ixs = fn ->
      exists printed,
        get_normalized_features to_float (pre ++ hdr :: data) model
        = Ok (normalized_table to_float (by_name_params fn hdr norm) data, printed)).
Proof.
  intros fn norm ixs Hpre Hne Hl1 Hl2 Hl3 Hdata.
  pose proof (get_normalized_features_rows to_float model pre hdr data
                Hpre Hne Hl1 Hl2 Hl3 Hdata) as Hres.
  split; [exact Hres|].
  intros Hnd Hnames. unfold by_name_params.
  rewrite <- (header_ixs_by_name fn hdr Hnd Hnames). exact Hres.
Qed.

Lemma get_normalized_features_table_order_witness :
  let model :=
    {| features_names := ["A"; "B"]; cnt_bins := 2;
       probabilities :=
         {| feature_value_in_actives := [[1 # 2; 1 # 2]; [1 # 2; 1 # 2]];
            feature_value_in_inactives := [[1 # 2; 1 # 2]; [1 # 2; 1 # 2]];
            active := 1 # 2; inactive := 1 # 2 |};
       normalization :=
         {| imputation_values := [5; 7]; mins := [0; 0]; maxs := [10; 100] |} |} in
  let header := ["Name"; "A"; "B"] in
  let data := [["f"; "5"; "50"]; []; ["g"; "x"; "500"]] in
  exists printed,
    get_normalized_features to_float_digits ([] ++ header :: data) model
    = Ok (normalized_table to_float_digits
            (by_name_params ["A"; "B"] header (normalization model)) data, printed).
Proof.
  intros model header data.
  apply (get_normalized_features_table_order to_float_digits model [] header data).
  - constructor.
  - discriminate.
  - reflexivity.
  - reflexivity.
  - reflexivity.
  - repeat constructor; cbn; lia.
  - repeat constructor; intros H; repeat (apply elem_of_cons in H as [H|H]; [discriminate H|]);
      by apply elem_of_nil in H.
  - reflexivity.
Defined.

(** ** Invariants of the merge *)

Lemma grown_refl v : grown v v.
Proof. unfold grown. repeat split; try lra; lia. Qed.

Lemma grown_trans v1 v2 v3 : grown v1 v2 -> grown v2 v3 -> grown v1 v3.
Proof.
  intros (N1 & L1 & H1 & C1) (N2 & L2 & H2 & C2). unfold grown.
  split; [congruence|]. split; [lra|]. split; [lra|lia].
Qed.

Lemma grown_widen v1 v : grown v (widen v1 v) /\ cnt (widen v1 v) = (cnt v + 1)%Z.
Proof.
  unfold grown, widen. cbn. split; [|done]. split; [done|].
  destruct (py_min_spec (fst (interval v1)) (fst (interval v))) as [[? E1]|[? E1]],
           (py_max_spec (snd (interval v1)) (snd (interval v))) as [[? E2]|[? E2]];
    rewrite E1, E2; repeat split; try lra; lia.
Qed.

(** Merging records held by new dicts into a running list of distinct
    dicts: the merge succeeds, the list stays free of repetitions and keeps
    its entries in place, and every dict only grows, its count by at most
    the number of merged records. *)
Lemma merge_features_grows S : forall (σ : store) F,
  NoDup F -> NoDup S -> (forall r, r ∈ S -> r ∉ F) ->
  (forall r, r ∈ F ++ S -> is_Some (σ !! r)) ->
  exists σ' F' extra,
    merge_features σ F S = Some (σ', F')
    /\ F' = F ++ extra /\ NoDup F' /\ (forall r, r ∈ extra -> r ∈ S)
    /\ (forall r, r ∉ F ++ S -> σ' !! r = σ !! r)
    /\ (forall r v, r ∈ F ++ S -> σ !! r = Some v ->
          exists v', σ' !! r = Some v' /\ grown v v'
                     /\ (cnt v' <= cnt v + Z.of_nat (length S))%Z
                     /\ (r ∈ S -> (cnt v' < cnt v + Z.of_nat (length S))%Z)).
Proof.
  induction S as [|s S IH]; intros σ F HndF HndS Hdisj Hall.
  - exists σ, F, []. cbn. rewrite app_nil_r. do 3 (split; [done|]).
    split; [intros r Hr; by apply elem_of_nil in Hr|]. split; [done|].
    intros r v _ Hv. exists v. split; [done|]. split; [apply grown_refl|].
    split; [lia|]. intros Hr. by apply elem_of_nil in Hr.
  - apply NoDup_cons in HndS as [HsS HndS].
    assert (HsF : s ∉ F) by (apply Hdisj; left).
    destruct (Hall s) as [vs Hvs]; [set_solver|].
    destruct (scan_fresh s vs F σ false Hvs HsF HndF) as (σ1 & Hscan & Hout & Hin).
    { intros r Hr. apply Hall. set_solver. }
    cbn [merge_features]. rewrite Hscan. cbn [orb].
    set (hit := existsb _ F).
    set (F1 := if hit then F else F ++ [s]).
    assert (HF1 : exists e1, F1 = F ++ e1 /\ (forall r, r ∈ e1 -> r = s)).
    { unfold F1. destruct hit.
      - exists []. rewrite app_nil_r. split; [done|]. intros r Hr. by apply elem_of_nil in Hr.
      - exists [s]. split; [done|]. intros r Hr. by apply list_elem_of_singleton in Hr. }
    destruct HF1 as (e1 & HF1 & He1).
    assert (Hstep : forall r v, r ∈ F ++ s :: S -> σ !! r = Some v ->
              exists v1, σ1 !! r = Some v1 /\ grown v v1 /\ (cnt v1 <= cnt v + 1)%Z
                         /\ (r ∉ F -> v1 = v)).
    { intros r v Hr Hv. destruct (decide (r ∈ F)) as [HrF|HrF].
      - rewrite (Hin r v HrF Hv). eexists. split; [done|].
        destruct (matches vs v).
        + destruct (grown_widen vs v) as [? ->]. split; [done|]. split; [lia|done].
        + split; [apply grown_refl|]. split; [lia|done].
      - rewrite Hout by done. exists v. split; [done|]. split; [apply grown_refl|].
        split; [lia|done]. }
    destruct (IH σ1 F1) as (σ' & F' & extra & Hm & HF' & HndF' & Hextra & Hframe & Hgrow).
    + rewrite HF1. apply NoDup_app. split; [done|]. split.
      * intros r Hr Hr'. apply He1 in Hr'. by subst.
      * unfold F1 in HF1. destruct hit.
        -- assert (e1 = []) as -> by (by eapply app_inv_head; rewrite app_nil_r). constructor.
        -- assert (e1 = [s]) as -> by (by eapply app_inv_head). apply NoDup_singleton.
    + done.
    + intros r Hr. rewrite HF1. intros Hr'. apply elem_of_app in Hr' as [Hr'|Hr'].
      * apply (Hdisj r); [by right|done].
      * apply He1 in Hr'. by subst.
    + intros r Hr. assert (Hr0 : r ∈ F ++ s :: S).
      { rewrite HF1 in Hr. set_solver. }
      destruct (Hall r Hr0) as [v Hv]. destruct (Hstep r v Hr0 Hv) as (v1 & -> & _). eauto.
    + exists σ', F', (e1 ++ extra). split; [done|].
      split; [by rewrite HF', HF1, app_assoc|]. split; [done|]. split; [|split].
      * intros r Hr. apply elem_of_app in Hr as [Hr|Hr].
        -- apply He1 in Hr. subst. left.
        -- right. by apply Hextra.
      * intros r Hr. rewrite Hframe.
        -- apply Hout. set_solver.
        -- rewrite HF1. set_solver.
      * intros r v Hr Hv. destruct (Hstep r v Hr Hv) as (v1 & Hv1 & Hg1 & Hc1 & Hsame).
        destruct (decide (r ∈ F1 ++ S)) as [Hr1|Hr1].
        -- destruct (Hgrow r v1 Hr1 Hv1) as (v' & Hv' & Hg' & Hc' & Hc'').
           exists v'. split; [done|]. split; [by eapply grown_trans|].
           cbn [length]. split; [lia|]. intros HrS.
           assert (HrF : r ∉ F) by (by apply Hdisj).
           rewrite (Hsame HrF) in *.
           destruct (decide (r ∈ S)) as [HrS'|HrS']; [specialize (Hc'' HrS'); lia|lia].
        -- exists v1. rewrite Hframe by done. split; [done|]. split; [done|].
           cbn [length]. split; [lia|]. intros HrS.
           assert (HrF : r ∉ F) by (by apply Hdisj).
           rewrite (Hsame HrF). lia.
Qed.

Lemma merge_models_inv models : forall (σ : store) F (n : Z) (U : list feature),
  (0 <= n)%Z -> NoDup F ->
  (forall r, r ∈ F -> exists v', σ !! r = Some v' /\ (1 <= cnt v' <= n)%Z
                        /\ exists v, v ∈ U /\ grown v v') ->
  Forall (Forall (fun v => cnt v = 1%Z)) models ->
  exists σ' F' extra,
    merge_models σ F models = Some (σ', F') /\ F' = F ++ extra /\ NoDup F'
    /\ (forall r, r ∈ F' ->
          exists v', σ' !! r = Some v'
            /\ (1 <= cnt v' <= n + Z.of_nat (length (concat models)))%Z
            /\ exists v, v ∈ U ++ concat models /\ grown v v').
Proof.
  induction models as [|m models IH]; intros σ F n U Hn HndF Hinv Hcnt.
  - exists σ, F, []. cbn. rewrite !app_nil_r. do 3 (split; [done|]).
    intros r Hr. destruct (Hinv r Hr) as (v' & ? & ? & ?). exists v'.
    split; [done|]. split; [lia|done].
  - apply Forall_cons in Hcnt as [Hm Hcnt]. cbn [merge_models].
    destruct (alloc_all σ m) as [σ1 aux] eqn:Ha.
    destruct (alloc_all_spec _ _ _ _ Ha) as (Hnda & Hfresh & Hout & HF2).
    pose proof (Forall2_length _ _ _ HF2) as Hlen.
    assert (Hdisj : forall r, r ∈ aux -> r ∉ F).
    { intros r Hr HrF. destruct (Hinv r HrF) as (v' & Hv' & _).
      rewrite (Hfresh r Hr) in Hv'. done. }
    assert (HauxS : forall r, r ∈ aux -> exists v, σ1 !! r = Some v /\ v ∈ m).
    { intros r Hr. apply list_elem_of_lookup in Hr as [i Hi].
      destruct (Forall2_lookup_l _ _ _ _ _ HF2 Hi) as (v & Hv & Hs).
      exists v. split; [done|]. by eapply list_elem_of_lookup_2. }
    destruct (merge_features_grows aux σ1 F HndF Hnda Hdisj)
      as (σ2 & F1 & extra1 & Hmf & HF1 & HndF1 & Hex1 & _ & Hgrow).
    { intros r Hr. apply elem_of_app in Hr as [Hr|Hr].
      - destruct (Hinv r Hr) as (v' & Hv' & _). rewrite Hout; [by eexists|].
        intros Hr'. by apply (Hdisj r).
      - destruct (HauxS r Hr) as (v & -> & _). by eexists. }
    rewrite Hmf.
    destruct (IH σ2 F1 (n + Z.of_nat (length m))%Z (U ++ m) ltac:(lia) HndF1) as
      (σ' & F' & extra & Hmm & HF' & HndF' & Hfin); [|done|].
    + intros r Hr. rewrite HF1 in Hr. apply elem_of_app in Hr as [Hr|Hr].
      * destruct (Hinv r Hr) as (v0 & Hv0 & Hc0 & v & Hv & Hg).
        assert (Hv1 : σ1 !! r = Some v0).
        { rewrite Hout; [done|]. intros Hr'. by apply (Hdisj r). }
        destruct (Hgrow r v0) as (v' & Hv' & Hg' & Hc' & _); [set_solver|done|].
        exists v'. split; [done|]. destruct Hg' as (? & ? & ? & ?).
        split; [lia|]. exists v. split; [set_solver|].
        eapply grown_trans; [exact Hg|]. done.
      * pose proof (Hex1 r Hr) as Hra. destruct (HauxS r Hra) as (v & Hv & Hvm).
        destruct (Hgrow r v) as (v' & Hv' & Hg' & _ & Hc'); [set_solver|done|].
        specialize (Hc' Hra). rewrite Forall_forall in Hm. rewrite (Hm v Hvm) in *.
        exists v'. split; [done|]. destruct Hg' as (? & ? & ? & Hge).
        rewrite (Hm v Hvm) in Hge.
        split; [lia|]. exists v. split; [set_solver|]. unfold grown. by rewrite (Hm v Hvm).
    + exists σ', F', (extra1 ++ extra). split; [done|].
      split; [by rewrite HF', HF1, app_assoc|]. split; [done|].
      intros r Hr. destruct (Hfin r Hr) as (v' & Hv' & Hc & v & Hv & Hg).
      exists v'. split; [done|]. cbn [concat]. rewrite length_app.
      split; [lia|]. exists v. split; [by rewrite app_assoc|done].
Qed.

(** Every model read into new dicts and merged, from the empty list (lines
    91-96 of [analyze_models]): the merge never fails; no dict is held
    twice by the final list; and every entry has grown out of one of the
    records read: it has that record's name, an interval that contains the
    record's, and a count between 1 and the number of records read in
    all. *)
Theorem merge_models_entries (models : list (list feature)) :
  Forall (Forall (fun v => cnt v = 1%Z)) models ->
  exists (σ' : store) F',
    merge_models ∅ [] models = Some (σ', F')
    /\ NoDup F'
    /\ (forall r, r ∈ F' ->
          exists v', σ' !! r = Some v'
            /\ (1 <= cnt v' <= Z.of_nat (length (concat models)))%Z
            /\ exists v, v ∈ concat models /\ grown v v').
Proof.
  intros Hcnt.
  destruct (merge_models_inv models ∅ [] 0 [] ltac:(lia) (NoDup_nil_2))
    as (σ' & F' & extra & Hm & _ & Hnd & Hfin); [|done|].
  - intros r Hr. by apply elem_of_nil in Hr.
  - exists σ', F'. do 2 (split; [done|]). intros r Hr.
    destruct (Hfin r Hr) as (v' & ? & ? & ?). exists v'. split; [done|].
    split; [lia|done].
Qed.

Lemma merge_models_entries_witness :
  exists (σ' : store) F',
    merge_models ∅ []
      [[new_feature "A" 1 (0, 2); new_feature "A" 1 (1, 3)];
       [new_feature "B" 2 (0, 1)]] = Some (σ', F')
    /\ NoDup F'
    /\ (forall r, r ∈ F' ->
          exists v', σ' !! r = Some v'
            /\ (1 <= cnt v' <= 3)%Z
            /\ exists v, v ∈ [new_feature "A" 1 (0, 2); new_feature "A" 1 (1, 3);
                              new_feature "B" 2 (0, 1)] /\ grown v v').
Proof.
  apply (merge_models_entries
           [[new_feature "A" 1 (0, 2); new_feature "A" 1 (1, 3)];
            [new_feature "B" 2 (0, 1)]]).
  repeat constructor.
Defined.

(** ** More on the overlap test *)

Lemma py_min_comm a b : py_min a b == py_min b a.
Proof.
  destruct (py_min_spec a b) as [[? E1]|[? E1]], (py_min_spec b a) as [[? E2]|[? E2]];
    rewrite E1, E2; lra.
Qed.

Lemma py_max_comm a b : py_max a b == py_max b a.
Proof.
  destruct (py_max_spec a b) as [[? E1]|[? E1]], (py_max_spec b a) as [[? E2]|[? E2]];
    rewrite E1, E2; lra.
Qed.

Lemma get_overlap_value (a b : interval_t) :
  let d := py_min (snd a) (snd b) - py_max (fst a) (fst b) in
  (d <= 0 /\ get_overlap a b = 0) \/ (0 < d /\ get_overlap a b = d).
Proof.
  intros d. unfold get_overlap. fold d.
  destruct (py_max_spec 0 d) as [[H E]|[H E]]; rewrite E; [right|left]; done.
Qed.

(** The overlap is never negative, is the same (as a number) in both
    argument orders, and the overlap of an interval with itself is its
    width when that is positive: an interval of width zero does not overlap
    itself. *)
Theorem get_overlap_symmetric (a b : interval_t) :
  0 <= get_overlap a b
  /\ get_overlap a b == get_overlap b a
  /\ py_bool (get_overlap a b) = py_bool (get_overlap b a)
  /\ (py_bool (get_overlap a a) = true <-> fst a < snd a).
Proof.
  assert (Hd : py_min (snd a) (snd b) - py_max (fst a) (fst b)
               == py_min (snd b) (snd a) - py_max (fst b) (fst a)).
  { rewrite (py_min_comm (snd a)), (py_max_comm (fst a)). reflexivity. }
  assert (Hsym : get_overlap a b == get_overlap b a).
  { destruct (get_overlap_value a b) as [[H1 E1]|[H1 E1]],
             (get_overlap_value b a) as [[H2 E2]|[H2 E2]];
      rewrite E1, E2; cbn zeta in *; lra. }
  split; [|split; [done|split]].
  - destruct (get_overlap_value a b) as [[H1 E1]|[H1 E1]]; rewrite E1; cbn zeta in *; lra.
  - destruct (py_bool (get_overlap a b)) eqn:E1, (py_bool (get_overlap b a)) eqn:E2;
      try done.
    + apply py_bool_true in E1. exfalso. apply E1. rewrite Hsym.
      destruct (Qeq_dec (get_overlap b a) 0) as [E|E]; [done|].
      apply py_bool_true in E. congruence.
    + apply py_bool_true in E2. exfalso. apply E2. rewrite <- Hsym.
      destruct (Qeq_dec (get_overlap a b) 0) as [E|E]; [done|].
      apply py_bool_true in E. congruence.
  - rewrite get_overlap_true, py_min_self, py_max_self. split; lra.
Qed.

Lemma merge_models_apart models : forall (σ : store) F U,
  NoDup F ->
  Forall2 (fun r v => σ !! r = Some v) F U ->
  (forall i j vi vj, i <> j ->
     (U ++ concat models) !! i = Some vi -> (U ++ concat models) !! j = Some vj ->
     matches vi vj = false) ->
  exists σ' F',
    merge_models σ F models = Some (σ', F')
    /\ NoDup F'
    /\ Forall2 (fun r v => σ' !! r = Some v) F' (U ++ concat models).
Proof.
  induction models as [|m models IH]; intros σ F U Hnd HF Hno.
  - exists σ, F. cbn. by rewrite app_nil_r.
  - cbn [merge_models]. destruct (alloc_all σ m) as [σ1 aux] eqn:Ha.
    destruct (alloc_all_spec _ _ _ _ Ha) as (Hnda & Hfresh & Hout & HF2).
    assert (Hdisj : forall r, r ∈ F -> r ∉ aux).
    { intros r Hr Hr'. apply list_elem_of_lookup in Hr as [i Hi].
      destruct (Forall2_lookup_l _ _ _ _ _ HF Hi) as (v & _ & Hv).
      rewrite (Hfresh r Hr') in Hv. done. }
    assert (HF1 : Forall2 (fun r v => σ1 !! r = Some v) (F ++ aux) (U ++ m)).
    { apply Forall2_app; [|done]. apply (Forall2_store_mono σ); [|done].
      intros r Hr. apply Hout. by apply Hdisj. }
    assert (Hnd1 : NoDup (F ++ aux)).
    { apply NoDup_app. split; [done|]. split; [|done]. intros r Hr. by apply Hdisj. }
    rewrite (merge_features_all_new aux σ1 F Hnd1).
    + cbn [concat] in Hno. rewrite app_assoc in Hno.
      destruct (IH σ1 (F ++ aux) (U ++ m) Hnd1 HF1 Hno) as (σ' & F' & Hm & Hnd' & HF').
      exists σ', F'. split; [done|]. split; [done|].
      cbn [concat]. by rewrite app_assoc.
    + intros r Hr. apply list_elem_of_lookup in Hr as [i Hi].
      destruct (Forall2_lookup_l _ _ _ _ _ HF1 Hi) as (v & _ & Hv). by eexists.
    + intros s r vs vr Hs Hr Hne Hvs Hvr.
      assert (Hs' : s ∈ F ++ aux) by set_solver.
      apply list_elem_of_lookup in Hs' as [j Hj].
      apply list_elem_of_lookup in Hr as [i Hi].
      destruct (Forall2_lookup_l _ _ _ _ _ HF1 Hj) as (vs' & Hj' & Hvs').
      destruct (Forall2_lookup_l _ _ _ _ _ HF1 Hi) as (vr' & Hi' & Hvr').
      assert (vs' = vs) as -> by congruence. assert (vr' = vr) as -> by congruence.
      apply (Hno j i); [congruence| |].
      * cbn [concat]. rewrite app_assoc. apply lookup_app_l_Some. done.
      * cbn [concat]. rewrite app_assoc. apply lookup_app_l_Some. done.
Qed.

(** When no two of the records read, at different places, have the same
    name and overlapping intervals, nothing is merged: the final list
    holds all records of all models, in the order read, unchanged. *)
Theorem merge_models_nothing_to_merge (models : list (list feature)) :
  (forall i j vi vj, i <> j ->
     concat models !! i = Some vi -> concat models !! j = Some vj ->
     matches vi vj = false) ->
  exists (σ' : store) F',
    merge_models ∅ [] models = Some (σ', F')
    /\ NoDup F'
    /\ Forall2 (fun r v => σ' !! r = Some v) F' (concat models).
Proof.
  intros Hno. apply (merge_models_apart models ∅ [] []); [constructor|constructor|done].
Qed.

Lemma merge_models_nothing_to_merge_witness :
  exists (σ' : store) F',
    merge_models ∅ []
      [[new_feature "A" 1 (0, 1); new_feature "A" 2 (1, 2)];
       [new_feature "B" 3 (0, 2)]] = Some (σ', F')
    /\ NoDup F'
    /\ Forall2 (fun r v => σ' !! r = Some v) F'
         [new_feature "A" 1 (0, 1); new_feature "A" 2 (1, 2); new_feature "B" 3 (0, 2)].
Proof.
  apply (merge_models_nothing_to_merge
           [[new_feature "A" 1 (0, 1); new_feature "A" 2 (1, 2)];
            [new_feature "B" 3 (0, 2)]]).
  intros [|[|[|i]]] [|[|[|j]]] vi vj Hne Hi Hj; try done;
    cbn in Hi, Hj; injection Hi as <-; injection Hj as <-; reflexivity.
Defined.

(** ** More on the report *)

Section stability.
Context {A : Type} (lt : A -> A -> bool) (P : A -> Prop) `{!forall x, Decision (P x)}.
Hypothesis class_unordered : forall a b, P a -> P b -> lt a b = false.

Lemma insert_desc_filter x l :
  filter P (insert_desc lt x l) = filter P (x :: l).
Proof.
  induction l as [|y l IH]; [done|]. cbn [insert_desc].
  destruct (lt x y) eqn:E; [|done].
  rewrite (filter_cons _ y), IH, !filter_cons.
  destruct (decide (P x)) as [Hx|Hx], (decide (P y)) as [Hy|Hy]; try done.
  rewrite (class_unordered x y Hx Hy) in E. done.
Qed.

Lemma sorted_desc_filter l : filter P (sorted_desc lt l) = filter P l.
Proof.
  induction l as [|x l IH]; [done|].
  change (sorted_desc lt (x :: l)) with (insert_desc lt x (sorted_desc lt l)).
  rewrite insert_desc_filter, !filter_cons, IH. done.
Qed.
End stability.

Lemma report_groups_elem features k vs :
  (k, vs) ∈ report_groups features ->
  vs = sorted_desc (fun a b => Qltb (ratio a) (ratio b))
         (filter (fun v => cnt v = k) features).
Proof.
  intros Hin. unfold report_groups in Hin.
  apply list_elem_of_fmap in Hin as ([k' vs0] & E & Hin). cbn in E.
  injection E as -> ->. rewrite sorted_desc_perm in Hin.
  destruct (features_factors_ok features) as (_ & Hok & _).
  unfold factors_ok in Hok. rewrite Forall_forall in Hok.
  destruct (Hok _ Hin) as [E _]. cbn in E. by rewrite E.
Qed.

(** The sort of line 108 is stable: within a group, the entries with one and
    the same summed ratio are printed in the order they have in the merged
    list. *)
Theorem report_groups_stable features k vs (q : Q) :
  (k, vs) ∈ report_groups features ->
  filter (fun v => ratio v == q) vs
  = filter (fun v => ratio v == q) (filter (fun v => cnt v = k) features).
Proof.
  intros Hin. rewrite (report_groups_elem features k vs Hin).
  apply sorted_desc_filter. intros a b Ha Hb.
  apply Qltb_ge. rewrite Ha, Hb. apply Qle_refl.
Qed.

Lemma report_groups_stable_witness :
  filter (fun v => ratio v == 5)
    [new_feature "b" 5 (0, 1); new_feature "d" 5 (0, 1); new_feature "a" 3 (0, 1)]
  = filter (fun v => ratio v == 5)
      (filter (fun v => cnt v = 1%Z)
         [new_feature "a" 3 (0, 1); new_feature "b" 5 (0, 1);
          {| name := "c"; ratio := 9; interval := (0, 1); cnt := 2 |};
          new_feature "d" 5 (0, 1)]).
Proof.
  apply (report_groups_stable
           [new_feature "a" 3 (0, 1); new_feature "b" 5 (0, 1);
            {| name := "c"; ratio := 9; interval := (0, 1); cnt := 2 |};
            new_feature "d" 5 (0, 1)] 1).
  vm_compute. right. left.
Defined.

Lemma add_factor_concat v d :
  concat (add_factor v d).*2 ≡ₚ concat d.*2 ++ [v].
Proof.
  induction d as [|[k vs] d IH]; cbn; [done|].
  destruct (k =? cnt v)%Z; cbn.
  - rewrite <- !app_assoc. apply Permutation_app_head.
    apply Permutation_app_comm.
  - rewrite IH. by rewrite app_assoc.
Qed.

Lemma features_factors_concat fs :
  concat (features_factors fs).*2 ≡ₚ fs.
Proof.
  unfold features_factors.
  assert (Hgen : forall d, concat (fold_left (fun d val => add_factor val d) fs d).*2
                             ≡ₚ concat d.*2 ++ fs).
  { induction fs as [|v fs IH]; intros d; cbn; [by rewrite app_nil_r|].
    rewrite IH, add_factor_concat, <- app_assoc. done. }
  apply Hgen.
Qed.

Lemma report_groups_concat fs :
  concat (report_groups fs).*2 ≡ₚ fs.
Proof.
  unfold report_groups. rewrite <- list_fmap_compose.
  rewrite <- (features_factors_concat fs) at 2.
  set (ltk := fun a b : Z * list feature => (a.1 <? b.1)%Z).
  rewrite <- (sorted_desc_perm ltk (features_factors fs)) at 2.
  generalize (sorted_desc ltk (features_factors fs)). intros l.
  induction l as [|[k vs] l IH]; cbn; [done|].
  rewrite IH. apply Permutation_app_tail. apply sorted_desc_perm.
Qed.

Lemma filter_entries (vs : list feature) :
  filter (fun l => is_entry l = true) (entry_line <$> vs) = entry_line <$> vs.
Proof.
  induction vs as [|v vs IH]; [done|].
  rewrite fmap_cons, filter_cons_True by done. by rewrite IH.
Qed.

Lemma filter_entries_group (g : Z * list feature) :
  filter (fun l => is_entry l = true)
    (OutKey g.1 :: (entry_line <$> g.2) ++ [OutBlank])
  = entry_line <$> g.2.
Proof.
  rewrite filter_cons_False by done.
  rewrite filter_app, filter_entries, filter_cons_False by done.
  by rewrite filter_nil, app_nil_r.
Qed.

(** The report prints every entry of the merged list exactly once: the
    entry lines are, up to order, the lines of the entries of the list; and
    every group adds two more lines, its key and a blank line. *)
Theorem report_prints_each_entry_once features lines :
  report features = Some lines ->
  filter (fun l => is_entry l = true) lines ≡ₚ entry_line <$> features
  /\ length lines = (length features + 2 * length (report_groups features))%nat.
Proof.
  unfold report. destruct (forallb _ features); [|done]. intros [= <-].
  generalize (report_groups_concat features).
  generalize (report_groups features). intros G HG. split.
  - rewrite <- HG. clear HG. induction G as [|g G IH]; [done|].
    cbn [map fmap list_fmap concat]. rewrite filter_app, fmap_app, IH.
    apply Permutation_app_tail.
    change (map entry_line g.2) with (entry_line <$> g.2).
    by rewrite filter_entries_group.
  - rewrite <- HG. clear HG. induction G as [|g G IH]; [done|].
    cbn [map fmap list_fmap concat length]. rewrite !length_app, IH. cbn [length].
    rewrite length_app, length_map. cbn [length]. lia.
Qed.

Lemma report_prints_each_entry_once_witness :
  exists lines,
    report [new_feature "a" 3 (0, 1); new_feature "b" 5 (0, 1)] = Some lines
    /\ length lines = 4%nat.
Proof.
  eexists. split; [reflexivity|].
  refine (proj2 (report_prints_each_entry_once
                   [new_feature "a" 3 (0, 1); new_feature "b" 5 (0, 1)] _ _)).
  reflexivity.
Defined.

(** ** Reading a model analysis *)

Section read_model_facts.
Context {F : Type} (to_float : string -> F) (n : Z).

Lemma read_model_loop_in_section lines : forall features,
  (Z.of_nat (length features) < Z.max n 1)%Z ->
  read_model_loop to_float n lines true features
  = features ++ take (Z.to_nat (Z.max n 1) - length features)
                  (omap (fun line => parse_fields to_float (split_on "," line)) lines).
Proof.
  induction lines as [|line lines IH]; intros features Hlen.
  - cbn. by rewrite take_nil, app_nil_r.
  - cbn [read_model_loop omap list_omap]. rewrite orb_true_r.
    destruct (parse_fields to_float (split_on "," line)) as [f|]; [|by apply IH].
    rewrite length_app. cbn [length].
    destruct (n <=? Z.of_nat (length features + 1))%Z eqn:E.
    + apply Z.leb_le in E.
      replace (Z.to_nat (Z.max n 1) - length features)%nat with 1%nat by lia.
      cbn. by rewrite take_0.
    + apply Z.leb_gt in E. rewrite IH by (rewrite length_app; cbn; lia).
      rewrite length_app. cbn [length].
      replace (Z.to_nat (Z.max n 1) - length features)%nat
        with (S (Z.to_nat (Z.max n 1) - (length features + 1)))%nat by lia.
      cbn. by rewrite <- app_assoc.
Qed.

Lemma read_model_loop_before lines :
  read_model_loop to_float n lines false []
  = read_model_loop to_float n (from_marker lines) true [].
Proof.
  induction lines as [|line lines IH]; [done|].
  cbn [from_marker]. destruct (contains section_marker line) eqn:E.
  - cbn [read_model_loop]. by rewrite E.
  - cbn [read_model_loop]. rewrite E. cbn. apply IH.
Qed.

Lemma parse_fields_cnt s_line f :
  parse_fields to_float s_line = Some f ->
  raw_cnt f = 1%Z /\ s_line !! 1%nat = Some (raw_name f) /\ length s_line = 4%nat.
Proof.
  destruct s_line as [|f0 [|f1 [|f2 [|f3 [|? ?]]]]]; try done.
  by intros [= <-].
Qed.

(** [read_model] as a pipeline: the lines before the first line holding
    the marker are dropped; of the others, those with exactly four
    comma-separated fields are parsed; and the first [max(n, 1)] of these are
    returned: the limit [n] is only tested after an entry was added.  So the
    result has at most [max(n, 1)] entries, each with count 1 and with the
    second field of its line as name. *)
Theorem read_model_pipeline (lines : list string) :
  read_model to_float n lines
  = take (Z.to_nat (Z.max n 1))
      (omap (fun line => parse_fields to_float (split_on "," line))
            (from_marker lines))
  /\ (length (read_model to_float n lines) <= Z.to_nat (Z.max n 1))%nat
  /\ Forall (fun f => raw_cnt f = 1%Z
                      /\ exists line, line ∈ lines
                           /\ split_on "," line !! 1%nat = Some (raw_name f)
                           /\ length (split_on "," line) = 4%nat)
            (read_model to_float n lines).
Proof.
  assert (E : read_model to_float n lines
              = take (Z.to_nat (Z.max n 1))
                  (omap (fun line => parse_fields to_float (split_on "," line))
                        (from_marker lines))).
  { unfold read_model. rewrite read_model_loop_before, read_model_loop_in_section.
    - cbn. by rewrite Nat.sub_0_r.
    - cbn. lia. }
  split; [done|]. rewrite E. split.
  - rewrite length_take. lia.
  - apply Forall_forall. intros f Hf.
    apply elem_of_take in Hf as (i & Hf & _). apply list_elem_of_lookup_2 in Hf.
    apply list_elem_of_omap in Hf as (line & Hline & Hp).
    apply parse_fields_cnt in Hp as (? & ? & ?). split; [done|].
    exists line. split; [|done].
    clear -Hline. induction lines as [|l lines IH]; [done|].
    cbn in Hline. destruct (contains section_marker l); [done|]. right. by apply IH.
Qed.
End read_model_facts.

(** ** Bins of normalized values *)

Lemma floor_unit (q : Q) (c : Z) :
  (1 <= c)%Z -> 0 <= q -> q <= 1 ->
  (0 <= Qfloor (q * inject_Z c) <= c)%Z
  /\ (Qfloor (q * inject_Z c) = c <-> q == 1).
Proof.
  intros Hc H0 H1.
  assert (HC : 1 <= inject_Z c) by (change 1 with (inject_Z 1); by rewrite <- Zle_Qle).
  assert (Hlo : 0 <= q * inject_Z c) by (apply Qmult_le_0_compat; lra).
  assert (Hhi : q * inject_Z c <= inject_Z c).
  { rewrite <- (Qmult_1_l (inject_Z c)) at 2. apply Qmult_le_compat_r; lra. }
  pose proof (Qfloor_resp_le _ _ Hlo) as F0. change (Qfloor 0) with 0%Z in F0.
  pose proof (Qfloor_resp_le _ _ Hhi) as F1. rewrite Qfloor_Z in F1.
  split; [lia|]. split.
  - intros E. pose proof (Qfloor_le (q * inject_Z c)) as Hle. rewrite E in Hle.
    assert (1 * inject_Z c <= q * inject_Z c) by lra.
    apply Qmult_le_r in H; lra.
  - intros E. rewrite E, Qmult_1_l. apply Qfloor_Z.
Qed.



(** ** Vectors that are not finite *)

Lemma score_loop_prefix probs c n (Hc : (1 <= c)%Z) (Hok : tables_ok probs c n)
    good rest :
  forall ix score,
    (ix + length good <= n)%nat ->
    Forall (fun q => (- c <= Qfloor (q * inject_Z c) <= c)%Z) good ->
    exists ts,
      score_loop ((Fin <$> good) ++ rest) probs c ix score
      = score_loop rest probs c (ix + length good) (score ++ ts)
      /\ length ts = length good.
Proof.
  induction good as [|q good IH]; intros ix score Hn Hall; cbn [fmap list_fmap app].
  - exists []. by rewrite app_nil_r, Nat.add_0_r.
  - apply Forall_cons in Hall as [Hq Hall]. cbn in Hn.
    destruct (tables_ok_rows probs c n ix Hok) as (ra & ri & Hra & Hri & Hoka & Hoki); [lia|].
    destruct (score_loop_cons_ok probs c ix ra ri Hc Hra Hri Hoka Hoki q
                ((Fin <$> good) ++ rest) score Hq) as [t ->].
    destruct (IH (S ix) (score ++ [t])) as (ts & -> & Hlen); [lia|done|].
    exists (t :: ts). rewrite <- app_assoc. cbn.
    split; [|by rewrite Hlen]. f_equal. lia.
Qed.

Lemma bin_index_not_finite (c : Z) :
  (1 <= c)%Z ->
  bin_index NaN c = Raise ValueError
  /\ bin_index PInf c = Raise OverflowError
  /\ bin_index NInf c = Raise OverflowError.
Proof.
  intros Hc. unfold bin_index. cbn.
  rewrite Z.sgn_pos by lia. done.
Qed.



(** ** Fragments of a molecule *)

Lemma unique_from_spec l : forall seen,
  NoDup (unique_from seen l)
  /\ (forall s, s ∈ unique_from seen l <-> s ∈ l /\ s ∉ seen).
Proof.
  induction l as [|x l IH]; intros seen; cbn.
  - split; [constructor|]. intros s. split; [intros H; by apply elem_of_nil in H|].
    intros [H _]. by apply elem_of_nil in H.
  - case_bool_decide as Hx.
    + destruct (IH seen) as [Hnd Hel]. split; [done|]. intros s. rewrite Hel.
      split; [intros [? ?]; split; [by right|done]|].
      intros [Hs Hn]. split; [|done]. apply elem_of_cons in Hs as [->|Hs]; done.
    + destruct (IH (seen ++ [x])) as [Hnd Hel]. split.
      * apply NoDup_cons. split; [|done]. rewrite Hel. intros [_ Hn].
        apply Hn. apply elem_of_app. right. left.
      * intros s. rewrite elem_of_cons, Hel, elem_of_cons, not_elem_of_app.
        rewrite list_elem_of_singleton. split.
        -- intros [->|(Hs & Hn & Hne)]; [split; [by left|done]|split; [by right|done]].
        -- intros [[->|Hs] Hn]; [by left|].
           destruct (decide (s = x)) as [->|Hne]; [by left|right]. done.
Qed.

Lemma score_fragments_unique frags model ff : forall seen scores,
  score_fragments frags model ff seen scores
  = (new ← mapM (score_fragment model ff) (unique_from seen frags);
     mret (scores ++ new)).
Proof.
  induction frags as [|s frags IH]; intros seen scores;
    cbn [score_fragments unique_from].
  - cbn. by rewrite app_nil_r.
  - case_bool_decide as Hs; [apply IH|]. cbn [mapM].
    assert (Hsf : score_fragment model ff s
                  = match ff !! s with
                    | Some v => score_feature_vector v (probabilities model)
                                  (cnt_bins model)
                    | None => Raise KeyError
                    end).
    { unfold score_fragment. by destruct (ff !! s). }
    rewrite Hsf. destruct (ff !! s) as [v|]; cbn [mbind result_bind]; [|done].
    destruct (score_feature_vector v (probabilities model) (cnt_bins model)) as [sc|e];
      cbn [mbind result_bind]; [|done].
    rewrite IH.
    destruct (mapM (score_fragment model ff) (unique_from (seen ++ [s]) frags)) as [ys|e];
      cbn; [|done].
    by rewrite <- app_assoc.
Qed.

(** A fragment that occurs several times in a molecule is scored once, at
    its first occurrence: the scores that enter the mean are those of the
    distinct fragments, in the order of their first occurrences, and the
    first failing lookup or scoring among these is the failure of the
    whole. *)
Theorem score_fragments_first_occurrences frags model ff :
  score_fragments frags model ff [] []
  = mapM (score_fragment model ff) (unique_from [] frags)
  /\ NoDup (unique_from [] frags)
  /\ (forall s, s ∈ unique_from [] frags <-> s ∈ frags).
Proof.
  destruct (unique_from_spec frags []) as [Hnd Hel]. split; [|split; [done|]].
  - rewrite score_fragments_unique.
    destruct (mapM (score_fragment model ff) (unique_from [] frags)); done.
  - intros s. rewrite Hel. split; [by intros [? _]|].
    intros Hs. split; [done|]. apply not_elem_of_nil.
Qed.

Lemma score_fragments_missing frags model ff : forall seen scores,
  (forall s v, ff !! s = Some v ->
     exists sc, score_feature_vector v (probabilities model) (cnt_bins model) = Ok sc) ->
  Exists (fun s => ff !! s = None /\ s ∉ seen) frags ->
  score_fragments frags model ff seen scores = Raise KeyError.
Proof.
  induction frags as [|s frags IH]; intros seen scores Hok Hex.
  - by apply Exists_nil in Hex.
  - cbn. case_bool_decide as Hs.
    + apply IH; [done|]. apply Exists_cons in Hex as [[_ Hn]|Hex]; done.
    + destruct (ff !! s) as [v|] eqn:Ev; [|done]. cbn.
      destruct (Hok s v Ev) as [sc ->]. cbn. apply IH; [done|].
      apply Exists_cons in Hex as [[Hnone _]|Hex]; [congruence|].
      eapply Exists_impl; [exact Hex|]. intros s' [Hnone Hn]. split; [done|].
      rewrite not_elem_of_app, list_elem_of_singleton. split; [done|]. congruence.
Qed.

(** When a molecule has a fragment that the feature dict does not hold,
    and every vector the dict holds can be scored, [screen] raises
    KeyError; no result is returned for any molecule. *)
Theorem screen_missing_fragment mols model ff :
  (forall s v, ff !! s = Some v ->
     exists sc, score_feature_vector v (probabilities model) (cnt_bins model) = Ok sc) ->
  Exists (fun m => Exists (fun s => ff !! s = None) (mol_fragments m)) mols ->
  screen mols model ff = Raise KeyError.
Proof.
  intros Hok Hex. unfold screen.
  assert (screen_mols model ff mols = Raise KeyError) as ->; [|done].
  induction mols as [|m mols IH]; [by apply Exists_nil in Hex|].
  cbn. unfold screen_mol.
  destruct (decide (Exists (fun s => ff !! s = None) (mol_fragments m))) as [Hm|Hm].
  - rewrite (score_fragments_missing (mol_fragments m) model ff [] [] Hok); [done|].
    eapply Exists_impl; [exact Hm|]. intros s Hs. split; [done|]. apply not_elem_of_nil.
  - destruct (score_fragments_total (mol_fragments m) model ff [] []) as [res ->].
    { intros s Hs. destruct (ff !! s) as [v|] eqn:Ev.
      - destruct (Hok s v Ev) as [sc Hsc]. eauto.
      - exfalso. apply Hm. apply Exists_exists. eauto. }
    cbn. rewrite IH; [done|]. apply Exists_cons in Hex as [Hex|Hex]; done.
Qed.

Lemma screen_missing_fragment_witness :
  let model :=
    {| features_names := ["F"]; cnt_bins := 2;
       probabilities :=
         {| feature_value_in_actives := [[1 # 2; 1 # 2]];
            feature_value_in_inactives := [[9 # 10; 1 # 10]];
            active := 1 # 2; inactive := 1 # 2 |};
       normalization :=
         {| imputation_values := [5]; mins := [0]; maxs := [10] |} |} in
  screen [Mol "m1" [] None; Mol "m2" ["f"] None] model ∅ = Raise KeyError.
Proof.
  intros model.
  apply (screen_missing_fragment [Mol "m1" [] None; Mol "m2" ["f"] None] model ∅).
  - intros s v H. by rewrite lookup_empty in H.
  - right. left. left. reflexivity.
Defined.

(** ** Normalized values *)

Lemma Forall2_fmap_same {P A B} (R : A -> B -> Prop) (f : P -> A) (g : P -> B) params :
  Forall2 R (f <$> params) (g <$> params) -> Forall (fun p => R (f p) (g p)) params.
Proof.
  induction params as [|p params IH]; cbn; intros H; [constructor|].
  apply Forall2_cons in H as [? ?]. constructor; [done|]. by apply IH.
Qed.

Lemma omap_imap_none {A B} (l : list A) : forall (g : nat -> A -> option B),
  (forall i x, x ∈ l -> g i x = None) -> omap id (imap g l) = [].
Proof.
  induction l as [|x l IH]; intros g Hg; [done|].
  cbn. rewrite Hg by left. cbn. apply IH. intros i y Hy. apply Hg. by right.
Qed.

Lemma clip_report_quiet ix lo hi (col : list fl) :
  lo <= hi -> clip_report ix lo hi (fl_clip lo hi <$> col) = [].
Proof.
  intros Hle. unfold clip_report. apply omap_imap_none.
  intros i y Hy. apply list_elem_of_fmap in Hy as (x & -> & _).
  destruct (is_nan x) eqn:Ex.
  - unfold fl_clip. rewrite Ex. done.
  - destruct (fl_clip_range lo hi x Hle Ex) as (c & -> & H1 & H2). cbn.
    assert (Qltb c lo = false) as -> by (apply Qltb_ge; lra).
    assert (Qltb hi c = false) as -> by (apply Qltb_ge; lra). done.
Qed.

Lemma printed_pairs_quiet to_float P data :
  Forall (fun p : nat * Q * Q * Q => p.1.2 <= p.2) P ->
  printed_pairs to_float P data = [].
Proof.
  intros H. unfold printed_pairs.
  assert (Hgen : forall (l : list (nat * Q * Q * Q)) (g : nat -> nat * Q * Q * Q -> list (nat * nat)),
            (forall j p, p ∈ l -> g j p = []) -> concat (imap g l) = []).
  { induction l as [|p l IH]; intros g Hg; [done|]. cbn. rewrite Hg by left.
    cbn. apply IH. intros j q Hq. apply Hg. by right. }
  apply Hgen. intros j p Hp. rewrite Forall_forall in H.
  set (D := filter (fun r => r <> []) data).
  replace ((fun r => fl_clip p.1.2 p.2
                       (if is_nan (to_float (cell p.1.1.1 r)) then Fin p.1.1.2
                        else to_float (cell p.1.1.1 r))) <$> D)
    with (fl_clip p.1.2 p.2
            <$> ((fun r => if is_nan (to_float (cell p.1.1.1 r)) then Fin p.1.1.2
                           else to_float (cell p.1.1.1 r)) <$> D))
    by (by rewrite <- list_fmap_compose).
  apply clip_report_quiet. by apply H.
Qed.



Lemma normalize_row_unit to_float P row :
  Forall (fun p : nat * Q * Q * Q => p.1.2 < p.2) P ->
  length (normalize_row to_float P row) = length P
  /\ Forall (fun x => exists q, x = Fin q /\ 0 <= q /\ q <= 1)
            (normalize_row to_float P row).
Proof.
  intros H. unfold normalize_row. split; [by rewrite length_fmap|].
  apply Forall_fmap. eapply Forall_impl; [exact H|]. intros p Hp. cbn.
  by apply normalize_value_unit.
Qed.



(** ** Tables that are not well-formed *)

(** A table in which no row holds a feature name has no header: no column
    is selected and no row is taken as data.  Then the clipping loop fails
    with IndexError as soon as the model has a minimum; with no minimum,
    the result is the empty dict, or ValueError from the subtraction of
    line 92 when there are two or more maxima. *)
Theorem get_normalized_features_no_header to_float rows model :
  Forall (fun r => header_ixs (features_names model) 0 r = []) rows ->
  get_normalized_features to_float rows model
  = match mins (normalization model) with
    | _ :: _ => Raise IndexError
    | [] => if (length (maxs (normalization model)) <=? 1)%nat
            then Ok (∅, []) else Raise ValueError
    end.
Proof.
  intros H. unfold get_normalized_features.
  rewrite <- (app_nil_r rows).
  rewrite (read_rows_before_header (features_names model) rows [] H). cbn.
  destruct (mins (normalization model)) as [|lo mins']; [|done]. cbn.
  destruct (maxs (normalization model)) as [|hi [|hi' maxs']]; done.
Qed.

Lemma get_normalized_features_no_header_witness :
  get_normalized_features to_float_digits [["Name"; "X"]; ["f"; "1"]]
    {| features_names := ["A"]; cnt_bins := 2;
       probabilities :=
         {| feature_value_in_actives := [[1 # 2; 1 # 2]];
            feature_value_in_inactives := [[1 # 2; 1 # 2]];
            active := 1 # 2; inactive := 1 # 2 |};
       normalization :=
         {| imputation_values := [0]; mins := [0]; maxs := [3] |} |}
  = Raise IndexError.
Proof.
  apply (get_normalized_features_no_header to_float_digits [["Name"; "X"]; ["f"; "1"]]).
  repeat constructor.
Defined.

Lemma read_rows_app fn l1 : forall l2 st,
  read_rows fn (l1 ++ l2) st = (st' ← read_rows fn l1 st; read_rows fn l2 st').
Proof.
  induction l1 as [|r l1 IH]; intros l2 st; [done|].
  cbn. destruct (read_row fn st r) as [st'|e]; [|done]. cbn. apply IH.
Qed.

Lemma append_cells_short {P : Type} (pos : P -> nat) (f : P -> list string) row :
  forall params : list P,
    Exists (fun p => (length row <= pos p)%nat) params ->
    append_cells row (pos <$> params) (f <$> params) = Raise IndexError.
Proof.
  induction params as [|p params IH]; intros Hex; [by apply Exists_nil in Hex|].
  cbn. destruct (row !! pos p) as [c|] eqn:Ec; [|done].
  apply Exists_cons in Hex as [Hp|Hex].
  - apply lookup_lt_Some in Ec. lia.
  - by rewrite (IH Hex).
Qed.

(** A data row that does not reach one of the selected columns stops the
    reading with IndexError, wherever it stands after the header. *)
Theorem get_normalized_features_short_row to_float model pre hdr good bad rest :
  let fn := features_names model in
  let ixs := header_ixs fn 0 hdr in
  Forall (fun r => header_ixs fn 0 r = []) pre ->
  Forall (fun r => r = [] \/ Forall (fun i => (i < length r)%nat) ixs) good ->
  bad <> [] ->
  Exists (fun i => (length bad <= i)%nat) ixs ->
  get_normalized_features to_float (pre ++ hdr :: good ++ bad :: rest) model
  = Raise IndexError.
Proof.
  intros fn ixs Hpre Hgood Hbad Hex.
  assert (Hne : ixs <> []) by (intros E; rewrite E in Hex; by apply Exists_nil in Hex).
  unfold get_normalized_features. fold fn.
  rewrite (read_rows_before_header fn pre _ Hpre). cbn [read_rows].
  assert (Hhdr : read_row fn ([], [], []) hdr
                 = Ok (id <$> ixs, (fun i => cell (id i) <$> []) <$> ixs, cell 0 <$> [])).
  { destruct hdr as [|c hdr]; [done|]. cbn [read_row]. fold ixs.
    by rewrite list_fmap_id. }
  rewrite Hhdr. cbn [mbind result_bind]. rewrite read_rows_app.
  rewrite (read_rows_data id fn ixs good Hne Hgood []). cbn [mbind result_bind app].
  cbn [read_rows]. destruct bad as [|c bad]; [done|]. cbn [read_row].
  destruct ixs as [|i0 ixs0] eqn:Ei; [done|]. rewrite <- Ei.
  assert (id <$> ixs = id i0 :: (id <$> ixs0)) as Epos by (by rewrite Ei).
  rewrite Epos at 1. rewrite <- Ei in Hex.
  rewrite (append_cells_short id _ (c :: bad) ixs Hex). done.
Qed.

Lemma get_normalized_features_short_row_witness :
  get_normalized_features to_float_digits
    ([] ++ ["Name"; "A"; "B"] :: [["f"; "1"; "2"]] ++ ["g"; "1"] :: [])
    {| features_names := ["A"; "B"]; cnt_bins := 2;
       probabilities :=
         {| feature_value_in_actives := [[1 # 2; 1 # 2]; [1 # 2; 1 # 2]];
            feature_value_in_inactives := [[1 # 2; 1 # 2]; [1 # 2; 1 # 2]];
            active := 1 # 2; inactive := 1 # 2 |};
       normalization :=
         {| imputation_values := [5; 7]; mins := [0; 0]; maxs := [10; 100] |} |}
  = Raise IndexError.
Proof.
  apply (get_normalized_features_short_row to_float_digits _ []
           ["Name"; "A"; "B"] [["f"; "1"; "2"]] ["g"; "1"] []).
  - constructor.
  - repeat constructor; cbn; lia.
  - discriminate.
  - right. left. cbn. lia.
Defined.

(** ** Rows with the same fragment *)

Lemma normalized_table_last to_float P d1 r d2 :
  r <> [] ->
  Forall (fun r' => r' = [] \/ cell 0 r' <> cell 0 r) d2 ->
  normalized_table to_float P (d1 ++ r :: d2) !! cell 0 r
  = Some (normalize_row to_float P r).
Proof.
  intros Hr Hd2. unfold normalized_table.
  rewrite filter_app, filter_cons_True by done. rewrite fold_left_app. cbn [fold_left].
  generalize (fold_left (fun (d : gmap string (list fl)) row =>
                           <[cell 0 row := normalize_row to_float P row]> d)
                (filter (fun r0 => r0 <> []) d1) ∅).
  intros d0.
  assert (Hgen : forall (D : list (list string)) (d : gmap string (list fl)),
            Forall (fun r' => cell 0 r' <> cell 0 r) D ->
            fold_left (fun d row => <[cell 0 row := normalize_row to_float P row]> d) D d
              !! cell 0 r = d !! cell 0 r).
  { induction D as [|r' D IH]; intros d HD; [done|].
    apply Forall_cons in HD as [Hr' HD]. cbn. rewrite (IH _ HD).
    by rewrite lookup_insert_ne. }
  rewrite Hgen; [by rewrite lookup_insert_eq|].
  apply Forall_forall. intros r' Hr'. apply list_elem_of_filter in Hr' as [Hne Hin].
  rewrite Forall_forall in Hd2. destruct (Hd2 r' Hin); done.
Qed.

(** When several data rows start with the same fragment, the dict holds
    the vector of the last of them. *)
Theorem get_normalized_features_last_row_wins to_float model pre hdr d1 r d2 :
  let fn := features_names model in
  let norm := normalization model in
  let ixs := header_ixs fn 0 hdr in
  Forall (fun r => header_ixs fn 0 r = []) pre ->
  ixs <> [] ->
  length (imputation_values norm) = length ixs ->
  length (mins norm) = length ixs ->
  length (maxs norm) = length ixs ->
  Forall (fun r => r = [] \/ Forall (fun i => (i < length r)%nat) ixs) (d1 ++ r :: d2) ->
  r <> [] ->
  Forall (fun r' => r' = [] \/ cell 0 r' <> cell 0 r) d2 ->
  exists d printed,
    get_normalized_features to_float (pre ++ hdr :: d1 ++ r :: d2) model = Ok (d, printed)
    /\ d !! cell 0 r = Some (normalize_row to_float (column_params ixs norm) r).
Proof.
  intros fn norm ixs Hpre Hne Hl1 Hl2 Hl3 Hdata Hr Hd2.
  rewrite (get_normalized_features_rows_printed to_float model pre hdr (d1 ++ r :: d2)
             Hpre Hne Hl1 Hl2 Hl3 Hdata).
  eexists _, _. split; [done|]. by apply normalized_table_last.
Qed.

Lemma get_normalized_features_last_row_wins_witness :
  let model :=
    {| features_names := ["A"]; cnt_bins := 2;
       probabilities :=
         {| feature_value_in_actives := [[1 # 2; 1 # 2]];
            feature_value_in_inactives := [[1 # 2; 1 # 2]];
            active := 1 # 2; inactive := 1 # 2 |};
       normalization :=
         {| imputation_values := [0]; mins := [0]; maxs := [10] |} |} in
  exists d printed,
    get_normalized_features to_float_digits
      ([] ++ ["Name"; "A"] :: [["f"; "1"]] ++ ["f"; "5"] :: [["g"; "3"]]) model
    = Ok (d, printed)
    /\ d !! cell 0 ["f"; "5"]
       = Some (normalize_row to_float_digits
                 (column_params (header_ixs ["A"] 0 ["Name"; "A"]) (normalization model))
                 ["f"; "5"]).
Proof.
  intros model.
  apply (get_normalized_features_last_row_wins to_float_digits model []
           ["Name"; "A"] [["f"; "1"]] ["f"; "5"] [["g"; "3"]]).
  - constructor.
  - discriminate.
  - reflexivity.
  - reflexivity.
  - reflexivity.
  - repeat constructor; cbn; lia.
  - discriminate.
  - constructor; [|constructor]. right. discriminate.
Defined.

(** ** The whole run *)

Lemma score_feature_vector_total v probs c :
  (1 <= c)%Z -> tables_ok probs c (length v) ->
  Forall (fun q => (- c <= Qfloor (q * inject_Z c) <= c)%Z) v ->
  exists s, score_feature_vector (Fin <$> v) probs c = Ok s.
Proof.
  intros Hc Hok Hall. unfold score_feature_vector.
  destruct (score_loop_total probs c (length v) Hc Hok v 0 []) as (s & Hs & _);
    [cbn; lia|done|].
  rewrite Hs. cbn. destruct Hok as (_ & _ & _ & _ & Ha & Hi).
  pose proof (log_ratio_ok _ _ Ha Hi) as Hlog.
  destruct (py_div (active probs) (inactive probs)) as [q|]; [|done].
  cbn in Hlog |- *. rewrite Hlog. cbn. by eexists.
Qed.

Lemma unit_row_finite (row : list fl) :
  Forall (fun x => exists q, x = Fin q /\ 0 <= q /\ q <= 1) row ->
  exists qs, row = Fin <$> qs /\ Forall (fun q => 0 <= q /\ q <= 1) qs.
Proof.
  induction 1 as [|x row (q & -> & Hq) _ (qs & -> & Hqs)].
  - by exists [].
  - exists (q :: qs). split; [done|]. by constructor.
Qed.



Lemma normalize_row_mixed to_float P row :
  Forall (fun p : nat * Q * Q * Q => p.1.2 <= p.2) P ->
  Forall (fun x => x = NaN \/ exists q, x = Fin q /\ 0 <= q /\ q <= 1)
         (normalize_row to_float P row).
Proof.
  intros H. unfold normalize_row. apply Forall_fmap.
  eapply Forall_impl; [exact H|]. intros p Hp. cbn in Hp |- *.
  destruct (Qlt_le_dec p.1.2 p.2) as [Hlt|Hge].
  - right. by apply normalize_value_unit.
  - left. apply normalize_value_degenerate. lra.
Qed.

Lemma split_first_nan (row : list fl) :
  Forall (fun x => x = NaN \/ exists q, x = Fin q /\ 0 <= q /\ q <= 1) row ->
  NaN ∈ row ->
  exists good rest,
    row = (Fin <$> good) ++ NaN :: rest /\ Forall (fun q => 0 <= q /\ q <= 1) good.
Proof.
  induction 1 as [|x row Hx _ IH]; intros Hin; [by apply elem_of_nil in Hin|].
  destruct Hx as [->|(q & -> & Hq)].
  - exists [], row. split; [done|constructor].
  - apply elem_of_cons in Hin as [?|Hin]; [done|].
    destruct (IH Hin) as (good & rest & -> & Hg).
    exists (q :: good), rest. split; [done|]. by constructor.
Qed.

Lemma score_feature_vector_nan probs c n good rest :
  (1 <= c)%Z -> tables_ok probs c n -> (length good <= n)%nat ->
  Forall (fun q => 0 <= q /\ q <= 1) good ->
  score_feature_vector ((Fin <$> good) ++ NaN :: rest) probs c = Raise ValueError.
Proof.
  intros Hc Hok Hn Hall. unfold score_feature_vector.
  destruct (score_loop_prefix probs c n Hc Hok good (NaN :: rest) 0 [])
    as (ts & -> & _); [done| |].
  - eapply Forall_impl; [exact Hall|]. intros q [H0 H1].
    destruct (floor_unit q c Hc H0 H1) as [? _]. lia.
  - cbn [score_loop]. destruct (bin_index_not_finite c Hc) as (-> & _). done.
Qed.

Lemma screen_mols_raise model ff e mols :
  (forall m s, m ∈ mols -> s ∈ mol_fragments m ->
     exists v, ff !! s = Some v
       /\ score_feature_vector v (probabilities model) (cnt_bins model) = Raise e) ->
  Exists (fun m => mol_fragments m <> []) mols ->
  screen_mols model ff mols = Raise e.
Proof.
  induction mols as [|m mols IH]; intros Hall Hex; [by apply Exists_nil in Hex|].
  cbn. unfold screen_mol.
  destruct (mol_fragments m) as [|s frags] eqn:Ef.
  - cbn. rewrite IH; [done| |].
    + intros m' s' Hm'. apply Hall. by right.
    + apply Exists_cons in Hex as [Hex|Hex]; [by rewrite Ef in Hex|done].
  - destruct (Hall m s) as (v & Hv & Hsc); [left|rewrite Ef; left|].
    cbn. rewrite Hv. cbn. rewrite Hsc. done.
Qed.



(** ** Merging and reporting together *)

Lemma deref_all_Some (σ : store) l (Q0 : feature -> Prop) :
  (forall r, r ∈ l -> exists v, σ !! r = Some v /\ Q0 v) ->
  exists vs, deref_all σ l = Some vs /\ Forall Q0 vs /\ length vs = length l.
Proof.
  induction l as [|r l IH]; intros H; cbn.
  - exists []. split; [done|]. split; [constructor|done].
  - destruct (H r) as (v & -> & Hv); [left|].
    destruct IH as (vs & -> & Hvs & Hlen); [intros r' Hr'; apply H; by right|].
    exists (v :: vs). split; [done|]. split; [by constructor|]. cbn. by rewrite Hlen.
Qed.

(** [analyze_models] on models whose records have count 1: the merge
    succeeds, no count is 0, so the division of line 109 never fails and
    the report is printed; it has one entry line for every entry of the
    merged list, and every count lies between 1 and the number of records
    read. *)
Theorem analyze_models_prints (models : list (list feature)) :
  Forall (Forall (fun v => cnt v = 1%Z)) models ->
  exists (σ : store) features vs lines,
    merge_models ∅ [] models = Some (σ, features)
    /\ deref_all σ features = Some vs
    /\ analyze_models models = Some lines
    /\ filter (fun l => is_entry l = true) lines ≡ₚ entry_line <$> vs
    /\ Forall (fun v => (1 <= cnt v <= Z.of_nat (length (concat models)))%Z) vs.
Proof.
  intros Hcnt.
  destruct (merge_models_inv models ∅ [] 0 [] ltac:(lia) (NoDup_nil_2))
    as (σ & F & extra & Hm & _ & Hnd & Hfin); [|done|].
  { intros r Hr. by apply elem_of_nil in Hr. }
  destruct (deref_all_Some σ F
              (fun v => (1 <= cnt v <= Z.of_nat (length (concat models)))%Z))
    as (vs & Hvs & Hall & _).
  { intros r Hr. destruct (Hfin r Hr) as (v & Hv & Hc & _). exists v. split; [done|]. lia. }
  assert (Hrep : exists lines, report vs = Some lines).
  { unfold report.
    assert (forallb (fun v => negb (cnt v =? 0)%Z) vs = true) as ->; [|by eexists].
    apply forallb_forall. intros v Hv. apply list_elem_of_In in Hv.
    rewrite Forall_forall in Hall. specialize (Hall v Hv).
    apply negb_true_iff, Z.eqb_neq. lia. }
  destruct Hrep as [lines Hlines].
  exists σ, F, vs, lines. split; [done|]. split; [done|].
  split; [unfold analyze_models; by rewrite Hm, Hvs|]. split; [|done].
  unfold report in Hlines. destruct (forallb _ vs); [|done]. injection Hlines as <-.
  pose proof (report_groups_concat vs) as HG. revert HG.
  generalize (report_groups vs). intros G HG. rewrite <- HG. clear HG.
  induction G as [|g G IH]; [done|].
  cbn [map fmap list_fmap concat]. rewrite filter_app, fmap_app, IH.
  apply Permutation_app_tail.
  change (map entry_line g.2) with (entry_line <$> g.2).
  by rewrite filter_entries_group.
Qed.

Lemma analyze_models_prints_witness :
  exists (σ : store) features vs lines,
    merge_models ∅ []
      [[new_feature "A" 1 (0, 2)]; [new_feature "A" 3 (1, 3)]] = Some (σ, features)
    /\ deref_all σ features = Some vs
    /\ analyze_models [[new_feature "A" 1 (0, 2)]; [new_feature "A" 3 (1, 3)]]
       = Some lines
    /\ filter (fun l => is_entry l = true) lines ≡ₚ entry_line <$> vs
    /\ Forall (fun v => (1 <= cnt v <= 2)%Z) vs.
Proof.
  apply (analyze_models_prints [[new_feature "A" 1 (0, 2)]; [new_feature "A" 3 (1, 3)]]).
  repeat constructor.
Defined.

(** ** A table that lacks a feature column *)

Lemma clip_loop_too_many maxs mins_rest : forall ix (fm : list (list fl)) printed,
  (ix <= length fm)%nat -> (length fm < ix + length mins_rest)%nat ->
  clip_loop mins_rest ix maxs fm printed = Raise IndexError.
Proof.
  induction mins_rest as [|lo mins_rest IH]; intros ix fm printed H1 H2; cbn in *.
  - lia.
  - destruct (fm !! ix) as [col|] eqn:Ec; [|done].
    destruct (maxs !! ix) as [hi|]; [|done].
    apply lookup_lt_Some in Ec.
    apply IH; rewrite length_insert; lia.
Qed.


